(** * MetDataset preview: the CSV loader, the filter and the table projection

    A shallow embedding of [streamlit_csv.py].  The Streamlit widgets, the
    CSV parser and the cloud-storage client are collaborators of the program:
    the embedding starts at the parsed [DataFrame], takes the widget values
    ([sets_filter], [selected_labels_per_set], [show_url]) as arguments and
    the outcome of a signing request from an oracle, and records every
    signing request in a trace.

    A string is a sequence of code points; the embedding covers code points
    below 256, one [ascii] each, on which the order of [String.le] is
    Python's order on [str]. *)

From Stdlib Require Import Ascii String.
From stdpp Require Import gmap strings list sorting pretty.

Local Open Scope string_scope.

(** ** Python values *)

Module Py.

(** The scalars a cell of the parsed frame, a record's [url] or a cell of
    the table can hold.  A float that is not NaN is kept as the text
    [str()] prints for it (["1.5"], ["inf"]). *)
Inductive value :=
| PNone
| PStr (s : string)
| PNaN
| PFloat (repr : string)
| PInt (z : Z)
| PBool (b : bool).

#[global] Instance value_eq_dec : EqDecision value.
Proof. solve_decision. Defined.

(** [str(v)] *)
Definition str (v : value) : string :=
  match v with
  | PNone => "None"
  | PStr s => s
  | PNaN => "nan"
  | PFloat r => r
  | PInt z => pretty z
  | PBool true => "True"
  | PBool false => "False"
  end.

(** [bool(v)]: what [if v] and [v or w] test. *)
Definition truthy (v : value) : bool :=
  match v with
  | PNone => false
  | PStr s => negb (bool_decide (s = ""))
  | PNaN => true
  | PFloat r => negb (bool_decide (r = "0.0") || bool_decide (r = "-0.0"))
  | PInt z => negb (bool_decide (z = 0%Z))
  | PBool b => b
  end.

(** [v or w] *)
Definition or (v w : value) : value := if truthy v then v else w.

Definition isinstance_float (v : value) : bool :=
  match v with PNaN | PFloat _ => true | _ => false end.

(** [math.isnan], on a float *)
Definition isnan (v : value) : bool :=
  match v with PNaN => true | _ => false end.

(** [pd.isna] on a scalar *)
Definition isna (v : value) : bool :=
  match v with PNone | PNaN => true | _ => false end.

(** The characters [str.strip()] removes: 0x09-0x0D, 0x1C-0x1F, 0x20,
    0x85 and 0xA0. *)
Definition isspace (a : ascii) : bool :=
  let n := N_of_ascii a in
  ((9 <=? n) && (n <=? 13) || (28 <=? n) && (n <=? 32)
   || (n =? 133) || (n =? 160))%N.

Fixpoint lstrip (s : string) : string :=
  match s with
  | "" => ""
  | String a s' => if isspace a then lstrip s' else s
  end.

Fixpoint rstrip (s : string) : string :=
  match s with
  | "" => ""
  | String a s' =>
      match rstrip s' with
      | "" => if isspace a then "" else String a ""
      | r => String a r
      end
  end.

(** [s.strip()] *)
Definition strip (s : string) : string := rstrip (lstrip s).

(** [s.startswith(p)] *)
Definition startswith (s p : string) : bool := String.prefix p s.

(** [s[n:]] *)
Fixpoint slice_from (n : nat) (s : string) : string :=
  match n, s with
  | O, _ => s
  | S n', String _ s' => slice_from n' s'
  | S _, "" => ""
  end.

(** [s.partition("/")], without the separator: the text before the first
    slash and the text after it, or [(s, "")] when there is none. *)
Fixpoint partition_slash (s : string) : string * string :=
  match s with
  | "" => ("", "")
  | String a s' =>
      if bool_decide (a = "/"%char) then ("", s')
      else let '(b, p) := partition_slash s' in (String a b, p)
  end.

(** [sep.join(l)] *)
Definition join (sep : string) (l : list string) : string :=
  String.concat sep l.

(** [sorted(xs)] on strings: ascending code-point order. *)
Definition sorted (l : list string) : list string :=
  merge_sort String.le l.

(** A dict whose key order matters: keys in insertion order, an
    assignment to a key already there replaces its value in place. *)
Definition dict (V : Type) := list (string * V).

Fixpoint dict_set {V} (k : string) (v : V) (d : dict V) : dict V :=
  match d with
  | [] => [(k, v)]
  | (k', v') :: d' =>
      if bool_decide (k' = k) then (k, v) :: d' else (k', v') :: dict_set k v d'
  end.

Fixpoint dict_get {V} (d : dict V) (k : string) : option V :=
  match d with
  | [] => None
  | (k', v) :: d' => if bool_decide (k' = k) then Some v else dict_get d' k
  end.

Definition dict_keys {V} (d : dict V) : list string := d.*1.

(** [html.escape(s)], with [quote=True] *)
Fixpoint html_escape (s : string) : string :=
  match s with
  | "" => ""
  | String a s' =>
      let r := html_escape s' in
      if bool_decide (a = "&"%char) then "&amp;" +:+ r
      else if bool_decide (a = "<"%char) then "&lt;" +:+ r
      else if bool_decide (a = ">"%char) then "&gt;" +:+ r
      else if bool_decide (a = ascii_of_nat 34) then "&quot;" +:+ r
      else if bool_decide (a = "'"%char) then "&#x27;" +:+ r
      else String a r
  end.

End Py.

Import Py.

(** ** The parsed CSV *)

(** A row as [df.iterrows()] yields it: the values of the row labelled by
    the frame's columns. *)
Abbreviation Series := (list (string * value)).

(** [row.get(col)]: [None] when the label is missing. *)
Fixpoint series_get (row : Series) (col : string) : value :=
  match row with
  | [] => PNone
  | (c, v) :: row' => if bool_decide (c = col) then v else series_get row' col
  end.

Record DataFrame := {
  columns : list string;
  data : list (list value)
}.

Definition iterrows (df : DataFrame) : list Series :=
  zip (columns df) <$> data df.

(** ** Config *)

Definition signed_expiry_hours : Z := 12.

Definition NON_ANNOTATION_COLS : gset string := {["image_path"]}.

(** ** Signed URLs *)

(** One request to the storage client: [bucket(b).blob(p)] signed for
    [hours] hours. *)
Record sign_request := {
  sr_bucket : string;
  sr_path : string;
  sr_hours : Z
}.

#[global] Instance sign_request_eq_dec : EqDecision sign_request.
Proof. solve_decision. Defined.

(** What a request comes back with: the signed URL, or an exception, kept
    as its [str(e)]. *)
Inductive sign_outcome :=
| Signed (signed_url : string)
| Raised (msg : string).

(** The requests made so far, oldest first. *)
Definition trace := list sign_request.

Definition _parse_gs_uri (gs_uri : string) : string * string :=
  let rest := slice_from (String.length "gs://") gs_uri in
  partition_slash rest.

(** ** Records *)

Record record := {
  url : value;
  labels_by_set : gmap string (list string);
  __sign_error__ : option string
}.

Inductive exception :=
| ValueError (msg : string).

Section loader.

(** The storage client: the outcome of a request, which may depend on
    the requests made before it. *)
Variable generate_signed_url : trace → sign_request → sign_outcome.

Definition sign_gs_uri (gs_uri : string) (hours : Z) (tr : trace)
  : sign_outcome * trace :=
  let '(bucket, path) := _parse_gs_uri gs_uri in
  let rq := {| sr_bucket := bucket; sr_path := path; sr_hours := hours |} in
  (generate_signed_url tr rq, (tr ++ [rq])%list).

(** Lines 145-154: the image-path cell, signed when it is a [gs://]
    string.  Returns [url], [sign_err] and the trace. *)
Definition resolve_url (row : Series) (expiry_hours : Z) (tr : trace)
  : value * option string * trace :=
  let url := series_get row "image_path" in
  let sign_err := None in
  match url with
  | PStr u =>
      if startswith u "gs://" then
        match sign_gs_uri u expiry_hours tr with
        | (Signed s, tr') => (PStr s, sign_err, tr')
        | (Raised e, tr') => (PNone, Some e, tr')
        end
      else (url, sign_err, tr)
  | _ => (url, sign_err, tr)
  end.

(** Lines 159-164: one annotation column of one row. *)
Definition add_label (row : Series) (labels : gmap string (list string))
    (col : string) : gmap string (list string) :=
  let val := series_get row col in
  if isna val || (isinstance_float val && isnan val) then labels
  else
    let sval := strip (str val) in
    if bool_decide (sval ≠ "") then <[col := [sval]]> labels else labels.

Definition build_labels (annotation_cols : list string) (row : Series)
  : gmap string (list string) :=
  foldl (add_label row) ∅ annotation_cols.

(** The body of the loop over the rows. *)
Definition load_row (annotation_cols : list string) (expiry_hours : Z)
    (row : Series) (tr : trace) : record * trace :=
  let '(url, sign_err, tr') := resolve_url row expiry_hours tr in
  let labels_by_set := build_labels annotation_cols row in
  ({| url := url; labels_by_set := labels_by_set;
      __sign_error__ := sign_err |}, tr').

Definition load_rows (annotation_cols : list string) (expiry_hours : Z)
    (rows : list Series) (tr : trace) : list record * trace :=
  foldl (λ '(records, tr) row,
           let '(r, tr') := load_row annotation_cols expiry_hours row tr in
           ((records ++ [r])%list, tr'))
        ([], tr) rows.

(** [{s for r in records for s in r["labels_by_set"].keys()}] *)
Definition sets_of (records : list record) : gset string :=
  ⋃ ((λ r, dom (labels_by_set r)) <$> records).

(** [{l for r in records for l in r["labels_by_set"].get(s, [])}] *)
Definition labels_of (records : list record) (s : string) : gset string :=
  ⋃ ((λ r, list_to_set (default [] (labels_by_set r !! s))) <$> records).

Definition load_records_from_csv (df : DataFrame) (expiry_hours : Z)
    (tr : trace)
  : (exception + list record * list string * gmap string (list string))
    * trace :=
  if bool_decide ("image_path" ∉ columns df) then
    (inl (ValueError
       "CSV must include an 'image_path' column with paths or URLs to images."),
     tr)
  else
    let annotation_cols :=
      filter (λ c, c ∉ NON_ANNOTATION_COLS) (columns df) in
    let '(records, tr') :=
      load_rows annotation_cols expiry_hours (iterrows df) tr in
    let all_sets := sorted (elements (sets_of records)) in
    let labels_per_set :=
      foldl (λ m s, <[s := sorted (elements (labels_of records s))]> m)
            ∅ all_sets in
    (inr (records, all_sets, labels_per_set), tr').

End loader.

(** ** Filtering (AND) *)

Fixpoint record_matches_filters (sets_filter : list string)
    (selected_labels_per_set : gmap string (list string)) (rec : record)
  : bool :=
  match sets_filter with
  | [] => true
  | s :: sets_filter' =>
      if bool_decide (s ∉ dom (labels_by_set rec)) then false
      else
        let req_vals := default [] (selected_labels_per_set !! s) in
        if negb (bool_decide (req_vals = [])) then
          let have_vals := default [] (labels_by_set rec !! s) in
          if negb (forallb (λ v, bool_decide (v ∈ have_vals)) req_vals)
          then false
          else record_matches_filters sets_filter' selected_labels_per_set rec
        else record_matches_filters sets_filter' selected_labels_per_set rec
  end.

Definition filtered (sets_filter : list string)
    (selected_labels_per_set : gmap string (list string))
    (records : list record) : list record :=
  filter (λ r, record_matches_filters sets_filter selected_labels_per_set r
               = true) records.

(** ** Grid view *)

(** What one grid cell shows: [st.markdown(html)] or [st.caption(text)]. *)
Inductive element :=
| Markdown (html : string)
| Caption (text : string).

Definition dq : string := String (ascii_of_nat 34) "".
Definition nl : string := String (ascii_of_nat 10) "".

Fixpoint spaces (n : nat) : string :=
  match n with O => "" | S n' => String " "%char (spaces n') end.

Definition thumb_px : Z := 128.

(** Lines 257-268: one item per set of [all_sets] that has values. *)
Definition items_html (all_sets : list string) (rec : record) : list string :=
  let items :=
    foldl (λ items set_name,
             let vals := default [] (labels_by_set rec !! set_name) in
             if negb (bool_decide (vals = [])) then
               (items ++
                 ["<div class=" +:+ dq +:+ "label-item" +:+ dq +:+ ">"
                  +:+ "<span class=" +:+ dq +:+ "set" +:+ dq +:+ ">"
                  +:+ html_escape set_name +:+ ":</span>"
                  +:+ "<span class=" +:+ dq +:+ "vals" +:+ dq +:+ ">"
                  +:+ html_escape (join ", " vals) +:+ "</span>"
                  +:+ "</div>"])%list
             else items)
          [] all_sets in
  if bool_decide (items = []) then
    ["<div class=" +:+ dq +:+ "label-item" +:+ dq +:+ "><span class="
     +:+ dq +:+ "vals" +:+ dq +:+ ">No labels</span></div>"]
  else items.

Definition menu_html (all_sets : list string) (rec : record) : string :=
  "<div class=" +:+ dq +:+ "label-menu" +:+ dq +:+ ">"
  +:+ "<div class=" +:+ dq +:+ "menu-title" +:+ dq +:+ ">Labels</div>"
  +:+ join "" (items_html all_sets rec)
  +:+ "</div>".

(** Lines 255-287: the cell of one record. *)
Definition grid_cell (all_sets : list string) (rec : record) : element :=
  if truthy (url rec) then
    Markdown
      (nl +:+ spaces 24 +:+ "<div class=" +:+ dq +:+ "met-thumb" +:+ dq +:+ ">"
       +:+ nl +:+ spaces 26 +:+ "<img src=" +:+ dq +:+ str (url rec) +:+ dq
       +:+ " width=" +:+ dq +:+ pretty thumb_px +:+ dq
       +:+ " loading=" +:+ dq +:+ "lazy" +:+ dq +:+ "/>"
       +:+ nl +:+ spaces 26 +:+ menu_html all_sets rec
       +:+ nl +:+ spaces 24 +:+ "</div>"
       +:+ nl +:+ spaces 24)
  else Caption "No preview".

(** ** Table view *)

(** [", ".join(vals) if vals else ""] for the set [s] of a record. *)
Definition set_text (rec : record) (s : string) : string :=
  let vals := default [] (labels_by_set rec !! s) in
  if negb (bool_decide (vals = [])) then join ", " vals else "".

Definition to_row (show_url : bool) (all_sets : list string) (rec : record)
  : dict value :=
  let row := [("Preview", url rec)] in
  let row := if show_url then dict_set "URL" (or (url rec) (PStr "")) row
             else row in
  let row := foldl (λ row s, dict_set s (PStr (set_text rec s)) row)
                   row all_sets in
  match __sign_error__ rec with
  | Some e =>
      if truthy (PStr e) then dict_set "Signing error" (PStr e) row else row
  | None => row
  end.

(** [pd.DataFrame(rows)] on a list of dicts: the columns are the keys in the
    order they are first seen, a key a dict lacks reads NaN. *)
Definition DataFrame_of_dicts (rows : list (dict value)) : DataFrame :=
  let cols :=
    foldl (λ cols d,
             foldl (λ cols k, if bool_decide (k ∈ cols) then cols
                              else (cols ++ [k])%list)
                   cols (dict_keys d))
          [] rows in
  {| columns := cols;
     data := (λ d, (λ c, default PNaN (dict_get d c)) <$> cols) <$> rows |}.

(** [df.reindex(columns=col_order)]: a label the frame lacks reads NaN. *)
Definition reindex (df : DataFrame) (col_order : list string) : DataFrame :=
  {| columns := col_order;
     data :=
       (λ row, (λ c, if bool_decide (c ∈ columns df)
                     then series_get (zip (columns df) row) c
                     else PNaN) <$> col_order) <$> data df |}.

(** Lines 305-307: the frame handed to [st.dataframe]. *)
Definition table_view (show_url : bool) (all_sets : list string)
    (filtered : list record) : DataFrame :=
  let df := DataFrame_of_dicts (to_row show_url all_sets <$> filtered) in
  let col_order :=
    (["Preview"] ++ (if show_url then ["URL"] else []) ++ all_sets
     ++ (if bool_decide ("Signing error" ∈ columns df)
         then ["Signing error"] else []))%list in
  reindex df col_order.

(** ** View mode (query parameter [view]) *)

(** What [qp_get().get("view")] can be: nothing, one string (the current
    query-parameter interface) or a list of strings (the older one). *)
Inductive qp_value :=
| QNone
| QStr (s : string)
| QList (l : list string).

(** [c.lower()] on one character: A-Z, and the capital letters of Latin-1
    (0xC0-0xDE except the multiplication sign 0xD7). *)
Definition lower_char (a : ascii) : ascii :=
  let n := N_of_ascii a in
  if ((65 <=? n) && (n <=? 90)
      || (192 <=? n) && (n <=? 222) && negb (n =? 215))%N
  then ascii_of_N (n + 32) else a.

(** [s.lower()] *)
Fixpoint lower (s : string) : string :=
  match s with
  | "" => ""
  | String a s' => String (lower_char a) (lower s')
  end.

(** Lines 194-195: a list is replaced by its first element, [None] when it
    is empty. *)
Definition first_view_param (_view_param : qp_value) : option string :=
  match _view_param with
  | QNone => None
  | QStr s => Some s
  | QList [] => None
  | QList (s :: _) => Some s
  end.

(** Line 196: the index the radio starts at, 0 for Table and 1 for Grid. *)
Definition _initial_index (_view_param : qp_value) : nat :=
  match first_view_param _view_param with
  | Some s => if bool_decide (lower s = "grid") then 1 else 0
  | None => 0
  end.

Inductive view_mode := Table | Grid.

(** The option of [["Table", "Grid"]] at an index. *)
Definition radio_option (index : nat) : view_mode :=
  match index with 1 => Grid | _ => Table end.

(** Line 198 *)
Definition _desired_view (mode : view_mode) : string :=
  match mode with Grid => "grid" | Table => "table" end.

(** Line 199: whether the parameter is written back; [_view_param or
    "table"] is ["table"] for [None] and for the empty string. *)
Definition view_param_is_stale (_view_param : qp_value) (mode : view_mode)
  : bool :=
  let current :=
    match first_view_param _view_param with
    | Some s => if bool_decide (s = "") then "table" else s
    | None => "table"
    end in
  negb (bool_decide (current = _desired_view mode)).

(** ** Pages *)

(** What a page shows, in order. *)
Inductive widget :=
| st_markdown (body : string)
| st_info (body : string)
| st_columns (cells : list (nat * element))
| st_dataframe (df : DataFrame).

Definition n_cols : nat := 4.

(** [range(0, stop, step)] for a positive [step]. *)
Definition range_from_0 (stop step : nat) : list nat :=
  (λ k, k * step) <$> seq 0 ((stop + step - 1) / step).

(** [chunks(lst, n)], all of it: [range] refuses a step of zero. *)
Definition chunks {A} (lst : list A) (n : nat) : exception + list (list A) :=
  if bool_decide (n = 0) then
    inl (ValueError "range() arg 3 must not be zero")
  else inr ((λ i, take n (drop i lst)) <$> range_from_0 (length lst) n).

(** Lines 239 and 309 *)
Definition counts_line (records : list record) (all_sets : list string)
    (filtered : list record) : string :=
  "**Images shown:** " +:+ pretty (length filtered) +:+ " / "
  +:+ pretty (length records) +:+ "  |  **Annotation sets:** "
  +:+ pretty (length all_sets).

(** Lines 238-289: the grid page.  A row of the grid is [st.columns(n_cols)]
    with the cells of one chunk, each in the column [zip] pairs it with. *)
Definition grid_page (records : list record) (all_sets : list string)
    (filtered : list record) : exception + list widget :=
  let header := st_markdown (counts_line records all_sets filtered) in
  if bool_decide (filtered = []) then
    inr [header; st_info "No images match the current filters."]
  else
    match chunks filtered n_cols with
    | inl e => inl e
    | inr rows =>
        inr (header ::
             ((λ row, st_columns
                        ((λ '(col, rec), (col, grid_cell all_sets rec))
                           <$> zip (seq 0 n_cols) row)) <$> rows))
    end.

(** [df.empty] *)
Definition df_empty (df : DataFrame) : bool :=
  bool_decide (columns df = []) || bool_decide (data df = []).

(** Lines 305-322: the table page. *)
Definition table_page (show_url : bool) (records : list record)
    (all_sets : list string) (filtered : list record) : list widget :=
  let df := table_view show_url all_sets filtered in
  [st_markdown (counts_line records all_sets filtered);
   if df_empty df then st_info "No images match the current filters."
   else st_dataframe df].

(** ** Views of the code used in the statements *)

(** What [add_label] stores for a cell: nothing for a missing or NaN cell
    and for text that strips to nothing, else the stripped text alone. *)
Definition cell_label (val : value) : option (list string) :=
  if isna val || (isinstance_float val && isnan val) then None
  else if bool_decide (strip (str val) ≠ "") then Some [strip (str val)]
  else None.

(** The request [sign_gs_uri] sends for a URI. *)
Definition request_for (gs_uri : string) (hours : Z) : sign_request :=
  {| sr_bucket := (_parse_gs_uri gs_uri).1;
     sr_path := (_parse_gs_uri gs_uri).2;
     sr_hours := hours |}.

(** The requests the loop body sends for a row. *)
Definition requests_of (expiry_hours : Z) (row : Series)
  : list sign_request :=
  match series_get row "image_path" with
  | PStr u =>
      if startswith u "gs://" then [request_for u expiry_hours] else []
  | _ => []
  end.

(** What [to_row] stores under ["Signing error"]: the text of a signing
    error that is not empty. *)
Definition sign_error_cell (rec : record) : option value :=
  match __sign_error__ rec with
  | Some e => if truthy (PStr e) then Some (PStr e) else None
  | None => None
  end.

(** The item [items_html] appends for a set the record has values for. *)
Definition label_item (rec : record) (set_name : string) : string :=
  "<div class=" +:+ dq +:+ "label-item" +:+ dq +:+ ">"
  +:+ "<span class=" +:+ dq +:+ "set" +:+ dq +:+ ">"
  +:+ html_escape set_name +:+ ":</span>"
  +:+ "<span class=" +:+ dq +:+ "vals" +:+ dq +:+ ">"
  +:+ html_escape (join ", " (default [] (labels_by_set rec !! set_name)))
  +:+ "</span>"
  +:+ "</div>".

(** The item [items_html] falls back to. *)
Definition no_labels_item : string :=
  "<div class=" +:+ dq +:+ "label-item" +:+ dq +:+ "><span class="
  +:+ dq +:+ "vals" +:+ dq +:+ ">No labels</span></div>".

(** How often a character occurs in a string. *)
Definition count_char (c : ascii) (s : string) : nat :=
  length (filter (λ a, a = c) (list_ascii_of_string s)).

(** ** A sample dataset *)

(** A storage client that refuses the bucket [locked] and signs everything
    else. *)
Definition sample_signer : trace → sign_request → sign_outcome :=
  λ _ rq,
    if bool_decide (sr_bucket rq = "locked") then Raised "403 Forbidden"
    else Signed ("https://storage.example/" +:+ sr_bucket rq +:+ "/"
                 +:+ sr_path rq +:+ "?signed").

Definition sample_frame : DataFrame :=
  {| columns := ["image_path"; "species"; "count"];
     data :=
       [ [PStr "gs://zoo/cat.jpg"; PStr "cat"; PInt 3];
         [PStr "http://x/dog.jpg"; PStr " dog "; PNaN];
         [PNaN; PStr "   "; PFloat "1.5"];
         [PStr "gs://locked/x.png"; PNaN; PNaN];
         [PStr "s3://bucket/a.jpg"; PStr "cat"; PInt (-2)] ] |}.

(** A dataset with an annotation column named like the table's own
    signing-error column. *)
Definition error_named_frame : DataFrame :=
  {| columns := ["image_path"; "Signing error"];
     data := [ [PStr "http://x/a.jpg"; PStr "timeout"] ] |}.

(** A storage client whose requests raise an exception without text. *)
Definition silent_signer : trace → sign_request → sign_outcome :=
  λ _ _, Raised "".

Definition gs_frame : DataFrame :=
  {| columns := ["image_path"; "species"];
     data := [ [PStr "gs://zoo/cat.jpg"; PStr "cat"] ] |}.

Definition sample_loaded :=
  load_records_from_csv sample_signer sample_frame signed_expiry_hours [].

Definition sample_records : list record :=
  match sample_loaded.1 with inr (records, _, _) => records | inl _ => [] end.

Definition sample_all_sets : list string :=
  match sample_loaded.1 with inr (_, all_sets, _) => all_sets | inl _ => [] end.

Definition sample_labels_per_set : gmap string (list string) :=
  match sample_loaded.1 with
  | inr (_, _, labels_per_set) => labels_per_set
  | inl _ => ∅
  end.

(** Record [i] of the sample. *)
Definition sample_record (i : nat) : record :=
  default {| url := PNone; labels_by_set := ∅; __sign_error__ := None |}
          (sample_records !! i).

(** * Properties *)

(** ** [sorted] *)

Lemma sorted_Permutation (l : list string) : sorted l ≡ₚ l.
Proof. apply merge_sort_Permutation. Qed.

Lemma elem_of_sorted (l : list string) (x : string) : x ∈ sorted l ↔ x ∈ l.
Proof. by rewrite sorted_Permutation. Qed.

Lemma sorted_StronglySorted (l : list string) :
  StronglySorted String.le (sorted l).
Proof. apply (StronglySorted_merge_sort String.le). Qed.

Lemma sorted_NoDup (l : list string) : NoDup l → NoDup (sorted l).
Proof. by rewrite sorted_Permutation. Qed.

(** The ascending arrangement of a set is unique: [sorted] is determined by
    the elements, whatever sorting algorithm computes it. *)
Lemma sorted_unique (X : gset string) (l : list string) :
  StronglySorted String.le l → NoDup l → (∀ x, x ∈ l ↔ x ∈ X) →
  l = sorted (elements X).
Proof.
  intros Hl Hnd Hel.
  apply (StronglySorted_unique String.le); [done|apply sorted_StronglySorted|].
  rewrite sorted_Permutation. apply NoDup_Permutation; [done|apply NoDup_elements|].
  intros x. by rewrite Hel, elem_of_elements.
Qed.

(** ** The loop over the rows *)

Section loader_facts.

Variable generate_signed_url : trace → sign_request → sign_outcome.
Variables (annotation_cols : list string) (expiry_hours : Z).

Local Abbreviation body := (load_row generate_signed_url annotation_cols expiry_hours).
Local Abbreviation loop := (load_rows generate_signed_url annotation_cols expiry_hours).

Lemma load_rows_snoc (rows : list Series) (row : Series) (tr : trace) :
  loop (rows ++ [row]) tr =
  (((loop rows tr).1 ++ [(body row (loop rows tr).2).1])%list,
   (body row (loop rows tr).2).2).
Proof.
  unfold load_rows. rewrite foldl_snoc.
  destruct (foldl _ _ rows) as [records tr1]. simpl.
  by destruct (load_row _ _ _ row tr1).
Qed.

Lemma load_rows_length (rows : list Series) (tr : trace) :
  length (loop rows tr).1 = length rows.
Proof.
  induction rows as [|row rows IH] using rev_ind; [done|].
  rewrite load_rows_snoc. simpl. rewrite !length_app, IH. done.
Qed.

(** Record [i] is the loop body run on row [i], after the requests of the
    rows before it. *)
Lemma load_rows_lookup (rows : list Series) (tr : trace) (i : nat)
    (row : Series) :
  rows !! i = Some row →
  (loop rows tr).1 !! i
  = Some (body row (loop (take i rows) tr).2).1.
Proof.
  revert i row. induction rows as [|row' rows IH] using rev_ind;
    intros i row Hi; [done|].
  rewrite load_rows_snoc. simpl.
  destruct (decide (i < length rows)) as [Hlt|Hge].
  - rewrite lookup_app_l in Hi by done.
    rewrite lookup_app_l by (by rewrite load_rows_length).
    rewrite take_app_le by lia. by apply IH.
  - assert (i = length rows) as ->.
    { apply lookup_lt_Some in Hi. rewrite length_app in Hi. simpl in Hi. lia. }
    rewrite list_lookup_middle in Hi by done. injection Hi as ->.
    rewrite list_lookup_middle by (by rewrite load_rows_length).
    by rewrite take_app_length.
Qed.

Lemma load_rows_elem_of (rows : list Series) (tr : trace) (r : record) :
  r ∈ (loop rows tr).1 →
  ∃ row tr0, row ∈ rows ∧ r = (body row tr0).1.
Proof.
  intros [i Hi]%list_elem_of_lookup.
  destruct (rows !! i) as [row|] eqn:Hrow.
  - rewrite (load_rows_lookup _ _ _ _ Hrow) in Hi. injection Hi as <-.
    exists row, (loop (take i rows) tr).2. split; [|done].
    by eapply list_elem_of_lookup_2.
  - apply lookup_ge_None in Hrow. apply lookup_lt_Some in Hi.
    rewrite load_rows_length in Hi. lia.
Qed.

Lemma load_row_labels (row : Series) (tr : trace) :
  labels_by_set (body row tr).1 = build_labels annotation_cols row.
Proof.
  unfold load_row.
  by destruct (resolve_url _ row expiry_hours tr) as [[u e] tr'].
Qed.

End loader_facts.

(** ** Labels of one row *)

Lemma add_label_cell (row : Series) (labels : gmap string (list string))
    (col : string) :
  add_label row labels col =
  match cell_label (series_get row col) with
  | Some l => <[col := l]> labels
  | None => labels
  end.
Proof.
  unfold add_label, cell_label.
  destruct (isna _ || _); [done|]. by case_bool_decide.
Qed.

Lemma foldl_add_label_lookup (row : Series) (cols : list string)
    (labels : gmap string (list string)) (c : string) :
  foldl (add_label row) labels cols !! c =
  if decide (c ∈ cols) then
    match cell_label (series_get row c) with
    | Some l => Some l
    | None => labels !! c
    end
  else labels !! c.
Proof.
  revert labels. induction cols as [|col cols IH]; intros labels; cbn [foldl].
  { by rewrite decide_False by apply not_elem_of_nil. }
  rewrite IH, add_label_cell.
  destruct (decide (col = c)) as [->|Hne].
  - rewrite (decide_True (P := c ∈ c :: cols)) by left.
    destruct (cell_label (series_get row c)) as [l|] eqn:Hl.
    + rewrite lookup_insert_eq. by destruct (decide (c ∈ cols)).
    + by destruct (decide (c ∈ cols)).
  - assert (labels' : match cell_label (series_get row col) with
                      | Some l => <[col:=l]> labels
                      | None => labels
                      end !! c = labels !! c).
    { destruct (cell_label (series_get row col)); [|done].
      by rewrite lookup_insert_ne. }
    rewrite labels'.
    destruct (decide (c ∈ cols)) as [Hin|Hnin].
    + by rewrite (decide_True (P := c ∈ col :: cols)) by (by right).
    + rewrite (decide_False (P := c ∈ col :: cols)); [done|].
      intros [->|?]%elem_of_cons; done.
Qed.

Lemma build_labels_lookup (cols : list string) (row : Series) (c : string) :
  build_labels cols row !! c =
  if decide (c ∈ cols) then cell_label (series_get row c) else None.
Proof.
  unfold build_labels. rewrite foldl_add_label_lookup, lookup_empty.
  destruct (decide (c ∈ cols)); [|done].
  by destruct (cell_label (series_get row c)).
Qed.

Lemma cell_label_Some (val : value) (l : list string) :
  cell_label val = Some l → l = [strip (str val)] ∧ strip (str val) ≠ "".
Proof.
  unfold cell_label. destruct (isna val || _); [done|].
  case_bool_decide; [|done]. by intros [= <-].
Qed.

Lemma elem_of_annotation_cols (cols : list string) (c : string) :
  c ∈ filter (λ c, c ∉ NON_ANNOTATION_COLS) cols
  ↔ c ∈ cols ∧ c ≠ "image_path".
Proof.
  rewrite list_elem_of_filter. unfold NON_ANNOTATION_COLS.
  rewrite not_elem_of_singleton. tauto.
Qed.

(** ** The loader as a whole *)

Section load_facts.

Variable generate_signed_url : trace → sign_request → sign_outcome.

Local Abbreviation load := (load_records_from_csv generate_signed_url).

(** The annotation columns of a frame: every column but the image path. *)
Local Abbreviation annotation_cols_of df :=
  (filter (λ c, c ∉ NON_ANNOTATION_COLS) (columns df)).

Lemma load_unfold (df : DataFrame) (expiry_hours : Z) (tr : trace) :
  "image_path" ∈ columns df →
  load df expiry_hours tr =
  let rs := load_rows generate_signed_url (annotation_cols_of df)
              expiry_hours (iterrows df) tr in
  let all_sets := sorted (elements (sets_of rs.1)) in
  (inr (rs.1, all_sets,
        foldl (λ m s, <[s := sorted (elements (labels_of rs.1 s))]> m)
              ∅ all_sets), rs.2).
Proof.
  intros Hin. unfold load_records_from_csv.
  rewrite bool_decide_eq_false_2 by (by intros ?).
  by destruct (load_rows _ _ _ _ _).
Qed.

Lemma load_inv (df : DataFrame) (expiry_hours : Z) (tr tr' : trace)
    (records : list record) (all_sets : list string)
    (labels_per_set : gmap string (list string)) :
  load df expiry_hours tr = (inr (records, all_sets, labels_per_set), tr') →
  "image_path" ∈ columns df
  ∧ records = (load_rows generate_signed_url (annotation_cols_of df)
                 expiry_hours (iterrows df) tr).1
  ∧ all_sets = sorted (elements (sets_of records))
  ∧ labels_per_set =
      foldl (λ m s, <[s := sorted (elements (labels_of records s))]> m)
            ∅ all_sets.
Proof.
  intros Hload.
  destruct (decide ("image_path" ∈ columns df)) as [Hin|Hnin].
  - rewrite load_unfold in Hload by done. simpl in Hload.
    injection Hload as <- <- <- <-. done.
  - unfold load_records_from_csv in Hload.
    by rewrite bool_decide_eq_true_2 in Hload.
Qed.

End load_facts.

(** ** The filter *)

Lemma forallb_elem_of (have_vals req_vals : list string) :
  forallb (λ v, bool_decide (v ∈ have_vals)) req_vals = true
  ↔ ∀ v, v ∈ req_vals → v ∈ have_vals.
Proof.
  induction req_vals as [|x req_vals IH]; simpl.
  - split; [intros _ v Hv; by apply elem_of_nil in Hv|done].
  - rewrite andb_true_iff, bool_decide_eq_true, IH. split.
    + intros [Hx Hall] v [->|Hv]%elem_of_cons; auto.
    + intros Hall. split; [apply Hall; left|intros v Hv; apply Hall; by right].
Qed.

(** One round of the loop of [record_matches_filters]. *)
Lemma record_matches_filters_cons (s : string) (sets_filter : list string)
    (selected_labels_per_set : gmap string (list string)) (rec : record) :
  record_matches_filters (s :: sets_filter) selected_labels_per_set rec = true
  ↔ (∃ have_vals, labels_by_set rec !! s = Some have_vals
       ∧ ∀ v, v ∈ default [] (selected_labels_per_set !! s) → v ∈ have_vals)
    ∧ record_matches_filters sets_filter selected_labels_per_set rec = true.
Proof.
  cbn [record_matches_filters]. case_bool_decide as Hdom.
  - split; [done|]. intros [(have_vals & Hs & _) _].
    apply not_elem_of_dom in Hdom. congruence.
  - apply elem_of_dom in Hdom as [have_vals Hs].
    rewrite Hs. cbn [from_option id].
    destruct (default [] (selected_labels_per_set !! s)) as [|x req] eqn:Hreq.
    + rewrite bool_decide_eq_true_2 by done. cbn [negb]. split.
      * intros Hrest. split; [|done]. exists have_vals. split; [done|].
        intros v Hv. by apply elem_of_nil in Hv.
      * by intros [_ Hrest].
    + rewrite bool_decide_eq_false_2 by done. cbn [negb].
      destruct (forallb _ (x :: req)) eqn:Hall; cbn [negb].
      * pose proof (proj1 (forallb_elem_of _ _) Hall) as Hall'.
        split; [|by intros [_ ?]].
        intros Hrest. split; [|done]. by exists have_vals.
      * split; [done|]. intros [(have' & Hs' & Hvals) _].
        assert (have' = have_vals) as -> by congruence.
        pose proof (proj2 (forallb_elem_of _ _) Hvals). congruence.
Qed.

Lemma record_matches_filters_forall (sets_filter : list string)
    (selected_labels_per_set : gmap string (list string)) (rec : record) :
  record_matches_filters sets_filter selected_labels_per_set rec = true
  ↔ ∀ s, s ∈ sets_filter →
      ∃ have_vals, labels_by_set rec !! s = Some have_vals
        ∧ ∀ v, v ∈ default [] (selected_labels_per_set !! s) → v ∈ have_vals.
Proof.
  induction sets_filter as [|s sf IH].
  - split; [|done]. intros _ s Hs. by apply elem_of_nil in Hs.
  - rewrite record_matches_filters_cons, IH. split.
    + intros [Hs Hrest] s' [->|Hs']%elem_of_cons; auto.
    + intros Hall. split; [apply Hall; left|].
      intros s' Hs'. apply Hall. by right.
Qed.

(** C1: a record matches if and only if every set of [sets_filter] is a key
    of its [labels_by_set] and every value required for that set
    ([selected_labels_per_set.get(s, [])]) occurs among the record's values
    for it.  In particular an empty [sets_filter] matches every record, and
    a selected set with an empty list of required values only has to be
    present. *)
Theorem record_matches_filters_iff (sets_filter : list string)
    (selected_labels_per_set : gmap string (list string)) (rec : record) :
  (record_matches_filters sets_filter selected_labels_per_set rec = true
   ↔ ∀ s, s ∈ sets_filter →
       ∃ have_vals, labels_by_set rec !! s = Some have_vals
         ∧ ∀ v, v ∈ default [] (selected_labels_per_set !! s) → v ∈ have_vals)
  ∧ record_matches_filters [] selected_labels_per_set rec = true
  ∧ (∀ s, default [] (selected_labels_per_set !! s) = [] →
       (record_matches_filters (s :: sets_filter) selected_labels_per_set rec
          = true
        ↔ s ∈ dom (labels_by_set rec)
          ∧ record_matches_filters sets_filter selected_labels_per_set rec
              = true)).
Proof.
  split; [apply record_matches_filters_forall|split; [done|]].
  intros s Hreq. rewrite record_matches_filters_cons, Hreq, elem_of_dom.
  split.
  - intros [(have_vals & Hs & _) Hrest]. by split; [exists have_vals|].
  - intros [[have_vals Hs] Hrest]. split; [|done].
    exists have_vals. split; [done|]. intros v Hv. by apply elem_of_nil in Hv.
Qed.

(** C7: a constraint that extends another one (more sets in [sets_filter],
    more required values for the sets already selected) matches a sublist
    of what the other one matches: the matched records can only shrink. *)
Theorem filter_monotone (sets_filter sets_filter' : list string)
    (selected selected' : gmap string (list string))
    (records : list record) :
  (∀ s, s ∈ sets_filter → s ∈ sets_filter') →
  (∀ s v, s ∈ sets_filter →
          v ∈ default [] (selected !! s) → v ∈ default [] (selected' !! s)) →
  filtered sets_filter' selected' records
    `sublist_of` filtered sets_filter selected records
  ∧ ∀ r, r ∈ filtered sets_filter' selected' records →
         r ∈ filtered sets_filter selected records.
Proof.
  intros Hsets Hvals.
  assert (Hmono : ∀ r,
    record_matches_filters sets_filter' selected' r = true →
    record_matches_filters sets_filter selected r = true).
  { intros r. rewrite !record_matches_filters_forall. intros Hr s Hs.
    destruct (Hr s (Hsets s Hs)) as (have_vals & Hhave & Hall).
    exists have_vals. split; [done|]. intros v Hv. apply Hall. by apply Hvals. }
  split.
  - unfold filtered. induction records as [|r records IH]; [done|].
    rewrite !filter_cons.
    destruct (decide (record_matches_filters sets_filter' selected' r = true))
      as [Hr|Hr].
    + rewrite decide_True by (by apply Hmono). by constructor.
    + destruct (decide (record_matches_filters sets_filter selected r = true));
        [by constructor|done].
  - intros r. unfold filtered. rewrite !list_elem_of_filter.
    intros [Hr Hin]. split; [by apply Hmono|done].
Qed.

(** ** Loading a frame *)

Section load_claims.

Variable generate_signed_url : trace → sign_request → sign_outcome.

Local Abbreviation load := (load_records_from_csv generate_signed_url).
Local Abbreviation annotation_cols_of df :=
  (filter (λ c, c ∉ NON_ANNOTATION_COLS) (columns df)).
Local Abbreviation body df h := (load_row generate_signed_url (annotation_cols_of df) h).
Local Abbreviation loop df h := (load_rows generate_signed_url (annotation_cols_of df) h).

(** The trace when the loop reaches row [i]. *)
Local Abbreviation trace_before df h tr i :=
  ((loop df h (take i (iterrows df)) tr).2).

Lemma iterrows_lookup (df : DataFrame) (i : nat) (cells : list value) :
  data df !! i = Some cells →
  iterrows df !! i = Some (zip (columns df) cells).
Proof. intros Hi. unfold iterrows. by rewrite list_lookup_fmap, Hi. Qed.

Lemma load_lookup (df : DataFrame) (expiry_hours : Z) (tr tr' : trace)
    (records : list record) (all_sets : list string)
    (labels_per_set : gmap string (list string)) (i : nat)
    (cells : list value) :
  load df expiry_hours tr = (inr (records, all_sets, labels_per_set), tr') →
  data df !! i = Some cells →
  records !! i
  = Some (body df expiry_hours (zip (columns df) cells)
            (trace_before df expiry_hours tr i)).1.
Proof.
  intros (_ & -> & _)%load_inv Hi.
  apply load_rows_lookup. by apply iterrows_lookup.
Qed.

(** C5: a frame without a column named [image_path] makes the loader raise
    [ValueError] before any row is read (no record list, no signing request);
    a frame with that column loads. *)
Theorem load_schema_error (df : DataFrame) (expiry_hours : Z) (tr : trace) :
  ("image_path" ∉ columns df →
   load df expiry_hours tr =
   (inl (ValueError
      "CSV must include an 'image_path' column with paths or URLs to images."),
    tr))
  ∧ ("image_path" ∈ columns df →
     ∃ records all_sets labels_per_set tr',
       load df expiry_hours tr
       = (inr (records, all_sets, labels_per_set), tr')).
Proof.
  split.
  - intros Hnin. unfold load_records_from_csv.
    by rewrite bool_decide_eq_true_2.
  - intros Hin. rewrite load_unfold by done. simpl. eauto.
Qed.

(** C6: a frame with the image-path column and N rows loads into exactly N
    records, and record [i] is the loop body run on row [i]: no row is
    dropped, duplicated or moved, whatever its signing request came back
    with. *)
Theorem load_preserves_rows (df : DataFrame) (expiry_hours : Z) (tr : trace) :
  "image_path" ∈ columns df →
  ∃ records all_sets labels_per_set tr',
    load df expiry_hours tr = (inr (records, all_sets, labels_per_set), tr')
    ∧ length records = length (data df)
    ∧ ∀ i cells, data df !! i = Some cells →
        records !! i
        = Some (body df expiry_hours (zip (columns df) cells)
                  (trace_before df expiry_hours tr i)).1.
Proof.
  intros Hin. rewrite load_unfold by done. cbv zeta.
  eexists _, _, _, _. split; [done|]. split.
  - rewrite load_rows_length. unfold iterrows. by rewrite length_fmap.
  - intros i cells Hi. apply load_rows_lookup. by apply iterrows_lookup.
Qed.

(** C4: in the record of a row, a column other than the image path is
    absent from [labels_by_set] when its cell is missing or NaN; otherwise
    the cell is turned into text and stripped, and the set holds that text
    alone when it is not empty and is absent when it is. *)
Theorem load_labels_by_set (df : DataFrame) (expiry_hours : Z)
    (tr tr' : trace) (records : list record) (all_sets : list string)
    (labels_per_set : gmap string (list string)) (i : nat)
    (cells : list value) (r : record) (col : string) :
  load df expiry_hours tr = (inr (records, all_sets, labels_per_set), tr') →
  data df !! i = Some cells →
  records !! i = Some r →
  col ∈ columns df →
  col ≠ "image_path" →
  let val := series_get (zip (columns df) cells) col in
  (val = PNone ∨ val = PNaN → labels_by_set r !! col = None)
  ∧ (val ≠ PNone → val ≠ PNaN → strip (str val) ≠ "" →
     labels_by_set r !! col = Some [strip (str val)])
  ∧ (val ≠ PNone → val ≠ PNaN → strip (str val) = "" →
     labels_by_set r !! col = None).
Proof.
  intros Hload Hcells Hr Hcol Hne val.
  rewrite (load_lookup _ _ _ _ _ _ _ _ _ Hload Hcells) in Hr.
  injection Hr as <-. rewrite load_row_labels, build_labels_lookup.
  rewrite decide_True by (by apply elem_of_annotation_cols).
  fold val. unfold cell_label. split; [|split].
  - by intros [-> | ->].
  - intros H1 H2 Hs. rewrite bool_decide_eq_true_2 by done.
    by destruct val.
  - intros H1 H2 Hs. rewrite bool_decide_eq_false_2 by (by intros ?).
    by destruct val.
Qed.

(** *** The vocabulary *)

Lemma elem_of_sets_of (records : list record) (s : string) :
  s ∈ sets_of records ↔ ∃ r, r ∈ records ∧ s ∈ dom (labels_by_set r).
Proof.
  unfold sets_of. rewrite elem_of_union_list. split.
  - intros (X & (r & -> & Hr)%list_elem_of_fmap & Hs). eauto.
  - intros (r & Hr & Hs). exists (dom (labels_by_set r)). split; [|done].
    apply list_elem_of_fmap. eauto.
Qed.

Lemma elem_of_labels_of (records : list record) (s v : string) :
  v ∈ labels_of records s
  ↔ ∃ r have_vals, r ∈ records ∧ labels_by_set r !! s = Some have_vals
                   ∧ v ∈ have_vals.
Proof.
  unfold labels_of. rewrite elem_of_union_list. split.
  - intros (X & (r & -> & Hr)%list_elem_of_fmap & Hv).
    apply elem_of_list_to_set in Hv.
    destruct (labels_by_set r !! s) as [have_vals|] eqn:Hs; simpl in Hv.
    + eauto.
    + by apply elem_of_nil in Hv.
  - intros (r & have_vals & Hr & Hs & Hv).
    exists (list_to_set (default [] (labels_by_set r !! s))). split.
    + apply list_elem_of_fmap. eauto.
    + rewrite Hs. by apply elem_of_list_to_set.
Qed.

Lemma foldl_insert_lookup {V} (f : string → V) (l : list string)
    (m : gmap string V) (k : string) :
  foldl (λ m s, <[s := f s]> m) m l !! k =
  if decide (k ∈ l) then Some (f k) else m !! k.
Proof.
  revert m. induction l as [|s l IH]; intros m; cbn [foldl].
  { by rewrite decide_False by apply not_elem_of_nil. }
  rewrite IH. destruct (decide (k ∈ l)) as [Hin|Hnin].
  - by rewrite decide_True by (by right).
  - destruct (decide (s = k)) as [->|Hne].
    + rewrite decide_True by left. by rewrite lookup_insert_eq.
    + rewrite lookup_insert_ne by done. rewrite decide_False; [done|].
      intros [->|?]%elem_of_cons; done.
Qed.

(** Every label a loaded record holds sits under an annotation column and
    is one non-empty text. *)
Lemma load_record_label (df : DataFrame) (expiry_hours : Z) (tr tr' : trace)
    (records : list record) (all_sets : list string)
    (labels_per_set : gmap string (list string)) (r : record) (s : string)
    (have_vals : list string) :
  load df expiry_hours tr = (inr (records, all_sets, labels_per_set), tr') →
  r ∈ records →
  labels_by_set r !! s = Some have_vals →
  s ∈ columns df ∧ s ≠ "image_path" ∧ ∃ v, have_vals = [v] ∧ v ≠ "".
Proof.
  intros (_ & -> & _)%load_inv Hr Hs.
  apply load_rows_elem_of in Hr as (row & tr0 & _ & ->).
  rewrite load_row_labels, build_labels_lookup in Hs.
  destruct (decide (s ∈ _)) as [Hin|]; [|done].
  apply elem_of_annotation_cols in Hin as [? ?].
  apply cell_label_Some in Hs as [-> ?]. eauto.
Qed.

(** C3: [all_sets] lists, in ascending order and once each, exactly the
    columns other than the image path under which some record holds a
    non-empty value; the image-path column is never in it; and
    [labels_per_set] has exactly the sets of [all_sets] as keys, each with
    the ascending list, without repeats, of the values the records hold
    under that set, none of them empty. *)
Theorem load_vocabulary (df : DataFrame) (expiry_hours : Z) (tr tr' : trace)
    (records : list record) (all_sets : list string)
    (labels_per_set : gmap string (list string)) :
  load df expiry_hours tr = (inr (records, all_sets, labels_per_set), tr') →
  StronglySorted String.le all_sets
  ∧ NoDup all_sets
  ∧ (∀ s, s ∈ all_sets
          ↔ s ∈ columns df ∧ s ≠ "image_path"
            ∧ ∃ r v, r ∈ records ∧ labels_by_set r !! s = Some [v] ∧ v ≠ "")
  ∧ ("image_path" ∉ all_sets)
  ∧ (∀ s, s ∈ all_sets ↔ is_Some (labels_per_set !! s))
  ∧ (∀ s vals, labels_per_set !! s = Some vals →
       StronglySorted String.le vals
       ∧ NoDup vals
       ∧ (∀ v, v ∈ vals
               ↔ ∃ r have_vals, r ∈ records
                   ∧ labels_by_set r !! s = Some have_vals ∧ v ∈ have_vals)
       ∧ ("" ∉ vals)).
Proof.
  intros Hload. pose proof (load_inv _ _ _ _ _ _ _ _ Hload) as (_ & _ & Hsets & Hlps).
  assert (Hmem : ∀ s, s ∈ all_sets
     ↔ s ∈ columns df ∧ s ≠ "image_path"
       ∧ ∃ r v, r ∈ records ∧ labels_by_set r !! s = Some [v] ∧ v ≠ "").
  { intros s. rewrite Hsets, elem_of_sorted, elem_of_elements, elem_of_sets_of.
    split.
    - intros (r & Hr & [have_vals Hs]%elem_of_dom).
      destruct (load_record_label _ _ _ _ _ _ _ _ _ _ Hload Hr Hs)
        as (? & ? & v & -> & ?). eauto 10.
    - intros (_ & _ & r & v & Hr & Hs & _). exists r. split; [done|].
      apply elem_of_dom. eauto. }
  split; [rewrite Hsets; apply sorted_StronglySorted|].
  split; [rewrite Hsets; apply sorted_NoDup, NoDup_elements|].
  split; [done|].
  split; [rewrite Hmem; by intros (_ & ? & _)|].
  split.
  - intros s. rewrite Hlps, foldl_insert_lookup, lookup_empty.
    destruct (decide (s ∈ all_sets)) as [Hin|Hnin].
    + split; [eauto|done].
    + split; [done|]. by intros [? ?].
  - intros s vals Hs. rewrite Hlps, foldl_insert_lookup, lookup_empty in Hs.
    destruct (decide (s ∈ all_sets)); [|done]. injection Hs as <-.
    split; [apply sorted_StronglySorted|].
    split; [apply sorted_NoDup, NoDup_elements|].
    split.
    + intros v. by rewrite elem_of_sorted, elem_of_elements, elem_of_labels_of.
    + rewrite elem_of_sorted, elem_of_elements, elem_of_labels_of.
      intros (r & have_vals & Hr & Hhave & Hv).
      destruct (load_record_label _ _ _ _ _ _ _ _ _ _ Hload Hr Hhave)
        as (_ & _ & v & -> & Hne).
      apply list_elem_of_singleton in Hv. congruence.
Qed.

(** *** The image-path cell *)

Lemma sign_gs_uri_request (gs_uri : string) (hours : Z) (tr : trace) :
  sign_gs_uri generate_signed_url gs_uri hours tr
  = (generate_signed_url tr (request_for gs_uri hours),
     (tr ++ [request_for gs_uri hours])%list).
Proof.
  unfold sign_gs_uri, request_for. by destruct (_parse_gs_uri gs_uri).
Qed.

Lemma startswith_gs (u : string) :
  startswith u "gs://" = true ↔ ∃ rest, u = "gs://" +:+ rest.
Proof.
  unfold startswith. split.
  - destruct u as [|a1 [|a2 [|a3 [|a4 [|a5 rest]]]]]; cbn [String.prefix];
      repeat (destruct (ascii_dec _ _); [subst|done]); try done.
    intros _. by exists rest.
  - intros [rest ->]. by destruct rest.
Qed.

Lemma resolve_url_gs (row : Series) (expiry_hours : Z) (tr : trace)
    (u : string) :
  series_get row "image_path" = PStr u →
  startswith u "gs://" = true →
  resolve_url generate_signed_url row expiry_hours tr =
  match generate_signed_url tr (request_for u expiry_hours) with
  | Signed s => (PStr s, None, (tr ++ [request_for u expiry_hours])%list)
  | Raised e => (PNone, Some e, (tr ++ [request_for u expiry_hours])%list)
  end.
Proof.
  intros Hcell Hgs. unfold resolve_url.
  rewrite Hcell, Hgs, sign_gs_uri_request.
  by destruct (generate_signed_url _ _).
Qed.

Lemma resolve_url_other (row : Series) (expiry_hours : Z) (tr : trace) :
  (∀ u, series_get row "image_path" = PStr u → startswith u "gs://" = false) →
  resolve_url generate_signed_url row expiry_hours tr
  = (series_get row "image_path", None, tr).
Proof.
  intros Hother. unfold resolve_url.
  destruct (series_get row "image_path") as [|u| | | |] eqn:Hcell; try done.
  by rewrite (Hother u).
Qed.

Lemma load_row_resolve (annotation_cols : list string) (expiry_hours : Z)
    (row : Series) (tr : trace) :
  load_row generate_signed_url annotation_cols expiry_hours row tr =
  let res := resolve_url generate_signed_url row expiry_hours tr in
  ({| url := res.1.1; labels_by_set := build_labels annotation_cols row;
      __sign_error__ := res.1.2 |}, res.2).
Proof.
  unfold load_row. by destruct (resolve_url _ _ _ _) as [[? ?] ?].
Qed.

(** One run of the loop body sends a signing request exactly when the
    image-path cell is a string that starts with [gs://].  Then one request, for the
    bucket and path of that string, joins the trace and its outcome decides
    [url] and the signing error.  For every other cell (a string of another
    scheme such as [s3://] or [http://], a number, NaN) no request is sent,
    the cell is the record's [url] as it is, and there is no signing
    error. *)
Theorem signing_only_for_gs_uris (annotation_cols : list string)
    (expiry_hours : Z) (row : Series) (tr : trace) :
  let cell := series_get row "image_path" in
  let res := load_row generate_signed_url annotation_cols expiry_hours row tr in
  (∀ rest, cell = PStr ("gs://" +:+ rest) →
     let rq := request_for ("gs://" +:+ rest) expiry_hours in
     res.2 = (tr ++ [rq])%list
     ∧ match generate_signed_url tr rq with
       | Signed s => url res.1 = PStr s ∧ __sign_error__ res.1 = None
       | Raised e => url res.1 = PNone ∧ __sign_error__ res.1 = Some e
       end)
  ∧ ((∀ rest, cell ≠ PStr ("gs://" +:+ rest)) →
     res.2 = tr ∧ url res.1 = cell ∧ __sign_error__ res.1 = None).
Proof.
  intros cell res. unfold res. rewrite load_row_resolve. cbv zeta. split.
  - intros rest Hcell.
    rewrite (resolve_url_gs _ _ _ _ Hcell) by (apply startswith_gs; eauto).
    by destruct (generate_signed_url _ _).
  - intros Hother. rewrite resolve_url_other; [done|].
    intros u Hcell. destruct (startswith u "gs://") eqn:Hgs; [|done].
    apply startswith_gs in Hgs as [rest ->]. by destruct (Hother rest).
Qed.

(** The trace after row [i] is the trace before it and what the body adds. *)
Lemma trace_before_S (df : DataFrame) (expiry_hours : Z) (tr : trace)
    (i : nat) (cells : list value) :
  data df !! i = Some cells →
  trace_before df expiry_hours tr (S i)
  = (body df expiry_hours (zip (columns df) cells)
       (trace_before df expiry_hours tr i)).2.
Proof.
  intros Hi%iterrows_lookup.
  rewrite (take_S_r _ _ _ Hi). by rewrite load_rows_snoc.
Qed.

(** C2, as the code has it: a row whose image-path cell is a string is kept
    as record [i] in every case.  When the string starts with [gs://] one
    signing request for [expiry_hours] hours is sent: if it comes back with a
    URL that URL is the record's [url] and there is no signing error, if it
    raises the [url] is [None] and the signing error is the text of the
    exception.  Any other string is the record's [url] unchanged, with no
    signing error and no request. *)
Theorem load_image_path_string (df : DataFrame) (expiry_hours : Z)
    (tr : trace) (i : nat) (cells : list value) (u : string) :
  "image_path" ∈ columns df →
  data df !! i = Some cells →
  series_get (zip (columns df) cells) "image_path" = PStr u →
  ∃ records all_sets labels_per_set tr' r,
    load df expiry_hours tr = (inr (records, all_sets, labels_per_set), tr')
    ∧ length records = length (data df)
    ∧ records !! i = Some r
    ∧ let tr_i := trace_before df expiry_hours tr i in
      let tr_i' := trace_before df expiry_hours tr (S i) in
      if startswith u "gs://" then
        let rq := request_for u expiry_hours in
        sr_hours rq = expiry_hours
        ∧ tr_i' = (tr_i ++ [rq])%list
        ∧ match generate_signed_url tr_i rq with
          | Signed s => url r = PStr s ∧ __sign_error__ r = None
          | Raised e => url r = PNone ∧ __sign_error__ r = Some e
          end
      else url r = PStr u ∧ __sign_error__ r = None ∧ tr_i' = tr_i.
Proof.
  intros Hin Hcells Hcell. rewrite load_unfold by done. cbv zeta.
  eexists _, _, _, _, _. split; [done|].
  split; [rewrite load_rows_length; unfold iterrows; by rewrite length_fmap|].
  split; [apply load_rows_lookup; by apply iterrows_lookup|].
  rewrite (trace_before_S _ _ _ _ _ Hcells), load_row_resolve. cbv zeta.
  destruct (startswith u "gs://") eqn:Hgs.
  - rewrite (resolve_url_gs _ _ _ _ Hcell Hgs).
    by destruct (generate_signed_url _ _).
  - rewrite resolve_url_other; [by rewrite Hcell|].
    intros u' Hu'. congruence.
Qed.

End load_claims.

(** ** The table *)

Lemma dict_get_set {V} (k k' : string) (v : V) (d : dict V) :
  dict_get (dict_set k v d) k'
  = if decide (k = k') then Some v else dict_get d k'.
Proof.
  induction d as [|[k0 v0] d IH]; cbn [dict_set dict_get].
  - case_bool_decide; by case_decide.
  - case_bool_decide as Hk0; cbn [dict_get].
    + subst k0. case_bool_decide; by case_decide.
    + rewrite IH. case_bool_decide; [|done]. subst k0. by rewrite decide_False.
Qed.

Lemma elem_of_dict_keys {V} (d : dict V) (k : string) :
  k ∈ dict_keys d ↔ is_Some (dict_get d k).
Proof.
  unfold dict_keys. induction d as [|[k0 v0] d IH]; cbn [dict_get fmap list_fmap fst].
  - split; [by intros ?%elem_of_nil|by intros [? ?]].
  - rewrite elem_of_cons, IH. case_bool_decide as Hk0.
    + subst. split; [eauto|by left].
    + split; [by intros [->|?]|by right].
Qed.

Lemma foldl_dict_set_get {V} (f : string → V) (sets : list string)
    (row : dict V) (k : string) :
  dict_get (foldl (λ row s, dict_set s (f s) row) row sets) k
  = if decide (k ∈ sets) then Some (f k) else dict_get row k.
Proof.
  revert row. induction sets as [|s sets IH]; intros row; cbn [foldl].
  { by rewrite decide_False by apply not_elem_of_nil. }
  rewrite IH, dict_get_set. destruct (decide (k ∈ sets)) as [Hin|Hnin].
  - by rewrite decide_True by (by right).
  - destruct (decide (s = k)) as [->|Hne].
    + by rewrite decide_True by left.
    + rewrite decide_False; [done|]. intros [->|?]%elem_of_cons; done.
Qed.

Lemma sign_error_cell_Some (rec : record) :
  is_Some (sign_error_cell rec)
  ↔ ∃ e, __sign_error__ rec = Some e ∧ e ≠ "".
Proof.
  unfold sign_error_cell. destruct (__sign_error__ rec) as [e|]; simpl.
  - case_bool_decide as He; simpl.
    + split; [by intros [? ?]|]. intros (e' & [= <-] & ?). done.
    + split; [eauto|by eauto].
  - split; [by intros [? ?]|]. by intros (e & ? & _).
Qed.

(** The key a row dict holds, read in the order of the assignments of
    [to_row], the last one first. *)
Lemma to_row_get (show_url : bool) (all_sets : list string) (rec : record)
    (k : string) :
  dict_get (to_row show_url all_sets rec) k =
  match (if decide (k = "Signing error") then sign_error_cell rec else None)
  with
  | Some v => Some v
  | None =>
      if decide (k ∈ all_sets) then Some (PStr (set_text rec k))
      else if decide (k = "URL" ∧ show_url = true)
           then Some (or (url rec) (PStr ""))
      else if decide (k = "Preview") then Some (url rec)
      else None
  end.
Proof.
  assert (Hrow : ∀ row,
    dict_get row k =
      (if decide (k = "URL" ∧ show_url = true)
       then Some (or (url rec) (PStr ""))
       else if decide (k = "Preview") then Some (url rec) else None) →
    dict_get
      (match __sign_error__ rec with
       | Some e => if truthy (PStr e)
                   then dict_set "Signing error" (PStr e)
                          (foldl (λ row s, dict_set s (PStr (set_text rec s)) row)
                             row all_sets)
                   else foldl (λ row s, dict_set s (PStr (set_text rec s)) row)
                          row all_sets
       | None => foldl (λ row s, dict_set s (PStr (set_text rec s)) row)
                   row all_sets
       end) k =
    match (if decide (k = "Signing error") then sign_error_cell rec else None)
    with
    | Some v => Some v
    | None =>
        if decide (k ∈ all_sets) then Some (PStr (set_text rec k))
        else if decide (k = "URL" ∧ show_url = true)
             then Some (or (url rec) (PStr ""))
        else if decide (k = "Preview") then Some (url rec)
        else None
    end).
  { intros row Hbase. unfold sign_error_cell.
    destruct (__sign_error__ rec) as [e|].
    - destruct (truthy (PStr e)).
      + rewrite dict_get_set, foldl_dict_set_get, Hbase.
        destruct (decide (k = "Signing error")) as [->|Hne].
        * by rewrite decide_True.
        * by rewrite decide_False by done.
      + rewrite foldl_dict_set_get, Hbase.
        by destruct (decide (k = "Signing error")).
    - rewrite foldl_dict_set_get, Hbase.
      by destruct (decide (k = "Signing error")). }
  unfold to_row. apply Hrow. destruct show_url.
  - rewrite dict_get_set. cbn [dict_get].
    destruct (decide ("URL" = k)) as [<-|Hne].
    + by destruct (decide ("URL" = "URL" ∧ true = true)) as [|[]].
    + destruct (decide (k = "URL" ∧ true = true)) as [[? _]|_]; [congruence|].
      case_bool_decide; by case_decide.
  - cbn [dict_get].
    destruct (decide (k = "URL" ∧ false = true)) as [[_ ?]|_]; [done|].
    case_bool_decide; by case_decide.
Qed.

Lemma elem_of_frame_columns (rows : list (dict value)) (c : string) :
  c ∈ columns (DataFrame_of_dicts rows)
  ↔ ∃ d, d ∈ rows ∧ c ∈ dict_keys d.
Proof.
  unfold DataFrame_of_dicts. cbn [columns].
  assert (Hkeys : ∀ (ks cols : list string),
    c ∈ foldl (λ cols k, if bool_decide (k ∈ cols) then cols
                         else (cols ++ [k])%list) cols ks
    ↔ c ∈ cols ∨ c ∈ ks).
  { induction ks as [|k ks IH]; intros cols; cbn [foldl].
    - rewrite elem_of_nil. tauto.
    - rewrite IH, elem_of_cons. case_bool_decide as Hk.
      + split; [tauto|]. intros [?|[->|?]]; auto.
      + rewrite elem_of_app, list_elem_of_singleton. tauto. }
  assert (Hrows : ∀ (ds : list (dict value)) (cols : list string),
    c ∈ foldl (λ cols d,
                 foldl (λ cols k, if bool_decide (k ∈ cols) then cols
                                  else (cols ++ [k])%list)
                       cols (dict_keys d)) cols ds
    ↔ c ∈ cols ∨ ∃ d, d ∈ ds ∧ c ∈ dict_keys d).
  { induction ds as [|d ds IH]; intros cols; cbn [foldl].
    - split; [auto|]. intros [?|(d & ?%elem_of_nil & _)]; done.
    - rewrite IH, Hkeys. split.
      + intros [[?|?]|(d' & ? & ?)]; [auto|right; exists d|right; exists d'];
          split; try done; by constructor.
      + intros [?|(d' & [->|?]%elem_of_cons & ?)]; eauto. }
  rewrite Hrows, elem_of_nil. split; [by intros [?|?]|auto].
Qed.

Lemma series_get_zip_fmap (f : string → value) (cols : list string)
    (c : string) :
  c ∈ cols → series_get (zip cols (f <$> cols)) c = f c.
Proof.
  induction cols as [|c' cols IH]; [by intros ?%elem_of_nil|].
  intros Hc. cbn [fmap list_fmap zip zip_with series_get].
  case_bool_decide as Hc'; [by subst|]. apply IH.
  apply elem_of_cons in Hc as [->|?]; done.
Qed.

(** A frame built from dicts and reindexed reads, in every row and under
    every label of the new order, what the row's dict holds there, and NaN
    when it holds nothing. *)
Lemma reindex_of_dicts_data (rows : list (dict value))
    (col_order : list string) :
  data (reindex (DataFrame_of_dicts rows) col_order)
  = (λ d, (λ c, default PNaN (dict_get d c)) <$> col_order) <$> rows.
Proof.
  assert (Hdata : data (DataFrame_of_dicts rows)
    = (λ d, (λ c, default PNaN (dict_get d c))
              <$> columns (DataFrame_of_dicts rows)) <$> rows) by done.
  unfold reindex. cbn [data]. rewrite Hdata, <- list_fmap_compose.
  apply list_fmap_ext. intros i d Hd.
  cbn [compose]. apply list_fmap_ext. intros j c _.
  case_bool_decide as Hc.
  - by rewrite (series_get_zip_fmap (λ c, default PNaN (dict_get d c))).
  - destruct (dict_get d c) as [v|] eqn:Hv; [|done].
    destruct Hc. apply elem_of_frame_columns. exists d. split.
    + by eapply list_elem_of_lookup_2.
    + apply elem_of_dict_keys. eauto.
Qed.

Lemma to_row_get_sign_error (show_url : bool) (all_sets : list string)
    (rec : record) :
  "Signing error" ∉ all_sets →
  dict_get (to_row show_url all_sets rec) "Signing error"
  = sign_error_cell rec.
Proof.
  intros Hnin. rewrite to_row_get. rewrite decide_True by done.
  destruct (sign_error_cell rec); [done|].
  rewrite decide_False by done.
  destruct (decide ("Signing error" = "URL" ∧ show_url = true)) as [[? _]|_];
    done.
Qed.

Lemma to_row_get_set (show_url : bool) (all_sets : list string)
    (rec : record) (s : string) :
  "Signing error" ∉ all_sets → s ∈ all_sets →
  dict_get (to_row show_url all_sets rec) s = Some (PStr (set_text rec s)).
Proof.
  intros Hnin Hs. rewrite to_row_get.
  rewrite decide_False by (intros ->; done). by rewrite decide_True.
Qed.

Lemma to_row_get_preview (show_url : bool) (all_sets : list string)
    (rec : record) :
  "Preview" ∉ all_sets →
  dict_get (to_row show_url all_sets rec) "Preview" = Some (url rec).
Proof.
  intros Hnin. rewrite to_row_get.
  rewrite (decide_False (P := "Preview" = "Signing error")) by done.
  rewrite decide_False by done.
  by destruct (decide ("Preview" = "URL" ∧ show_url = true)) as [[? _]|_].
Qed.

Lemma to_row_get_url (all_sets : list string) (rec : record) :
  "URL" ∉ all_sets →
  dict_get (to_row true all_sets rec) "URL"
  = Some (or (url rec) (PStr "")).
Proof.
  intros Hnin. rewrite to_row_get.
  rewrite (decide_False (P := "URL" = "Signing error")) by done.
  rewrite decide_False by done.
  by destruct (decide ("URL" = "URL" ∧ true = true)) as [|[]].
Qed.

Lemma frame_has_sign_error (show_url : bool) (all_sets : list string)
    (filtered : list record) :
  "Signing error" ∉ all_sets →
  "Signing error"
    ∈ columns (DataFrame_of_dicts (to_row show_url all_sets <$> filtered))
  ↔ ∃ r e, r ∈ filtered ∧ __sign_error__ r = Some e ∧ e ≠ "".
Proof.
  intros Hnin. rewrite elem_of_frame_columns. split.
  - intros (d & (r & -> & Hr)%list_elem_of_fmap & Hk).
    apply elem_of_dict_keys in Hk.
    rewrite to_row_get_sign_error in Hk by done.
    apply sign_error_cell_Some in Hk as (e & ? & ?). eauto.
  - intros (r & e & Hr & He & Hne).
    exists (to_row show_url all_sets r). split.
    + apply list_elem_of_fmap. eauto.
    + apply elem_of_dict_keys. rewrite to_row_get_sign_error by done.
      apply sign_error_cell_Some. eauto.
Qed.

(** C8, as the code has it: when no set is named [Preview], [URL] or
    [Signing error], the table has one row per filtered record, in order,
    under the columns [Preview], then [URL] when it is toggled on, then the
    sets of [all_sets] in their order, then [Signing error] exactly when
    some filtered record has a signing error whose text is not empty.  A row
    reads the record's [url], then [url or ""], then for every set the
    values joined by [", "] or the empty string when the record lacks the
    set, then the text of its own signing error, NaN when it has none. *)
Theorem table_view_layout (show_url : bool) (all_sets : list string)
    (filtered : list record) :
  "Preview" ∉ all_sets →
  "URL" ∉ all_sets →
  "Signing error" ∉ all_sets →
  ∃ tail,
    columns (table_view show_url all_sets filtered)
    = (["Preview"] ++ (if show_url then ["URL"] else []) ++ all_sets
       ++ tail)%list
    ∧ (tail = ["Signing error"]
         ∧ (∃ r e, r ∈ filtered ∧ __sign_error__ r = Some e ∧ e ≠ "")
       ∨ tail = []
         ∧ ¬ (∃ r e, r ∈ filtered ∧ __sign_error__ r = Some e ∧ e ≠ ""))
    ∧ data (table_view show_url all_sets filtered)
      = (λ r, [url r]
              ++ (if show_url then [or (url r) (PStr "")] else [])
              ++ ((λ s, PStr (set_text r s)) <$> all_sets)
              ++ ((λ _, match __sign_error__ r with
                        | Some e => if bool_decide (e = "") then PNaN
                                    else PStr e
                        | None => PNaN
                        end) <$> tail))%list <$> filtered
    ∧ length (data (table_view show_url all_sets filtered)) = length filtered
    ∧ (∀ r s, labels_by_set r !! s = None → set_text r s = "")
    ∧ (∀ r s vals, labels_by_set r !! s = Some vals → vals ≠ [] →
         set_text r s = join ", " vals).
Proof.
  intros Hpreview Hurl Herr. unfold table_view. cbv zeta.
  set (df := DataFrame_of_dicts (to_row show_url all_sets <$> filtered)).
  exists (if bool_decide ("Signing error" ∈ columns df)
          then ["Signing error"] else []).
  split; [done|]. split; [|split; [|split; [|split]]].
  - case_bool_decide as Hcol.
    + left. split; [done|]. by apply (frame_has_sign_error show_url all_sets).
    + right. split; [done|]. intros Hex. apply Hcol.
      by apply (frame_has_sign_error show_url all_sets).
  - unfold df. rewrite reindex_of_dicts_data, <- list_fmap_compose.
    apply list_fmap_ext. intros _ r _. cbn [compose].
    rewrite !fmap_app. f_equal; [|f_equal; [|f_equal]].
    + cbn [fmap list_fmap]. by rewrite to_row_get_preview.
    + destruct show_url; [|done]. cbn [fmap list_fmap].
      by rewrite to_row_get_url.
    + apply list_fmap_ext. intros _ s Hs%list_elem_of_lookup_2.
      by rewrite to_row_get_set.
    + case_bool_decide; [|done]. cbn [fmap list_fmap].
      rewrite to_row_get_sign_error by done. unfold sign_error_cell.
      destruct (__sign_error__ r) as [e|]; [|done]. cbn [truthy].
      by case_bool_decide.
  - unfold df. by rewrite reindex_of_dicts_data, !length_fmap.
  - intros r s Hs. unfold set_text. by rewrite Hs.
  - intros r s vals Hs Hne. unfold set_text. rewrite Hs. cbn [from_option id].
    by rewrite bool_decide_eq_false_2.
Qed.

(** ** Rows without an image path *)

Section nan_url.

Variable generate_signed_url : trace → sign_request → sign_outcome.

(** One run of the loop body on a row whose image-path cell is empty: the
    record keeps the parser's NaN as its [url], not [None], and has no
    signing error.  NaN
    is truthy: the grid takes the branch that renders an image for it, not
    the "No preview" one, and the table's [url or ""] is NaN again. *)
Theorem empty_image_path_url_is_nan (annotation_cols : list string)
    (expiry_hours : Z) (row : Series) (tr : trace) (all_sets : list string)
    (show_url : bool) :
  series_get row "image_path" = PNaN →
  let r := (load_row generate_signed_url annotation_cols expiry_hours row tr).1
  in
  url r = PNaN
  ∧ url r ≠ PNone
  ∧ __sign_error__ r = None
  ∧ truthy (url r) = true
  ∧ (∃ html, grid_cell all_sets r = Markdown html)
  ∧ grid_cell all_sets r ≠ Caption "No preview"
  ∧ or (url r) (PStr "") = PNaN
  ∧ ("Preview" ∉ all_sets →
     dict_get (to_row show_url all_sets r) "Preview" = Some PNaN)
  ∧ ("URL" ∉ all_sets →
     dict_get (to_row true all_sets r) "URL" = Some PNaN).
Proof.
  intros Hcell r.
  assert (Hurl : url r = PNaN).
  { unfold r. rewrite load_row_resolve. cbv zeta. cbn [url fst].
    rewrite resolve_url_other; [done|]. intros u Hu. congruence. }
  assert (Herr : __sign_error__ r = None).
  { unfold r. rewrite load_row_resolve. cbv zeta. cbn [__sign_error__ fst].
    rewrite resolve_url_other; [done|]. intros u Hu. congruence. }
  split; [done|]. split; [by rewrite Hurl|]. split; [done|].
  split; [by rewrite Hurl|].
  split; [unfold grid_cell; rewrite Hurl; cbn [truthy]; eauto|].
  split; [unfold grid_cell; by rewrite Hurl|].
  split; [by rewrite Hurl|]. split.
  - intros Hnin. by rewrite to_row_get_preview, Hurl.
  - intros Hnin. by rewrite to_row_get_url, Hurl.
Qed.

End nan_url.

(** * The sample dataset, loaded *)

Lemma sample_loaded_eq :
  sample_loaded
  = (inr (sample_records, sample_all_sets, sample_labels_per_set),
     [request_for "gs://zoo/cat.jpg" 12; request_for "gs://locked/x.png" 12]).
Proof. vm_compute. reflexivity. Qed.

Example sample_urls :
  (λ r, (url r, __sign_error__ r)) <$> sample_records
  = [ (PStr "https://storage.example/zoo/cat.jpg?signed", None);
      (PStr "http://x/dog.jpg", None);
      (PNaN, None);
      (PNone, Some "403 Forbidden");
      (PStr "s3://bucket/a.jpg", None) ].
Proof. vm_compute. reflexivity. Qed.

Example sample_vocabulary :
  sample_all_sets = ["count"; "species"]
  ∧ sample_labels_per_set !! "species" = Some ["cat"; "dog"]
  ∧ sample_labels_per_set !! "count" = Some ["-2"; "1.5"; "3"].
Proof. vm_compute. by repeat split. Qed.

Example sample_filter :
  url <$> filtered ["species"] {["species" := ["cat"]]} sample_records
  = [PStr "https://storage.example/zoo/cat.jpg?signed";
     PStr "s3://bucket/a.jpg"].
Proof. vm_compute. reflexivity. Qed.

Example sample_table :
  table_view true sample_all_sets (take 4 sample_records)
  = {| columns := ["Preview"; "URL"; "count"; "species"; "Signing error"];
       data :=
         [ [PStr "https://storage.example/zoo/cat.jpg?signed";
            PStr "https://storage.example/zoo/cat.jpg?signed";
            PStr "3"; PStr "cat"; PNaN];
           [PStr "http://x/dog.jpg"; PStr "http://x/dog.jpg";
            PStr ""; PStr "dog"; PNaN];
           [PNaN; PNaN; PStr "1.5"; PStr ""; PNaN];
           [PNone; PStr ""; PStr ""; PStr ""; PStr "403 Forbidden"] ] |}.
Proof. vm_compute. reflexivity. Qed.

(** The filter of the spec's third example: only the first of a record
    with [species = cat], one with [species = dog] and one without
    [species] matches. *)
Example filter_example_3 :
  let rec_of labels :=
    {| url := PNone; labels_by_set := labels; __sign_error__ := None |} in
  record_matches_filters ["species"] {["species" := ["cat"]]}
    <$> [rec_of {["species" := ["cat"]]}; rec_of {["species" := ["dog"]]};
         rec_of ∅]
  = [true; false; false].
Proof. vm_compute. reflexivity. Qed.

(** ** The theorems at the sample *)

(** Selecting [count] too and requiring [cat] under [species] shrinks what
    selecting [species] alone matches in the sample. *)
Lemma filter_monotone_witness :
  filtered ["species"; "count"] {["species" := ["cat"]]} sample_records
    `sublist_of` filtered ["species"] ∅ sample_records
  ∧ ∀ r, r ∈ filtered ["species"; "count"] {["species" := ["cat"]]}
               sample_records →
         r ∈ filtered ["species"] ∅ sample_records.
Proof.
  apply filter_monotone.
  - intros s Hs. apply list_elem_of_singleton in Hs as ->. by left.
  - intros s v _ Hv. rewrite lookup_empty in Hv. by apply elem_of_nil in Hv.
Defined.

(** The five rows of the sample load into five records. *)
Lemma load_preserves_rows_witness :
  ∃ records all_sets labels_per_set tr',
    load_records_from_csv sample_signer sample_frame 12 []
    = (inr (records, all_sets, labels_per_set), tr')
    ∧ length records = 5.
Proof.
  destruct (load_preserves_rows sample_signer sample_frame 12 [])
    as (records & all_sets & lps & tr' & Hload & Hlen & _).
  - compute_done.
  - exists records, all_sets, lps, tr'. split; [exact Hload|exact Hlen].
Defined.

(** Row 1 of the sample: [" dog "] is stored stripped under [species], the
    NaN under [count] stores nothing. *)
Lemma load_labels_by_set_witness :
  ∃ r, sample_records !! 1 = Some r
       ∧ labels_by_set r !! "species" = Some ["dog"]
       ∧ labels_by_set r !! "count" = None.
Proof.
  destruct (sample_records !! 1) as [r|] eqn:Hr; [|by vm_compute in Hr].
  exists r. split; [done|].
  assert (Hcells : data sample_frame !! 1
                   = Some [PStr "http://x/dog.jpg"; PStr " dog "; PNaN])
    by done.
  split.
  - destruct (load_labels_by_set sample_signer sample_frame 12 [] _ _ _ _ 1
                _ r "species" sample_loaded_eq Hcells Hr)
      as (_ & Hsome & _); [compute_done..|].
    apply Hsome; compute_done.
  - destruct (load_labels_by_set sample_signer sample_frame 12 [] _ _ _ _ 1
                _ r "count" sample_loaded_eq Hcells Hr)
      as (Hnone & _); [compute_done..|].
    apply Hnone. by right.
Defined.

(** The vocabulary of the sample. *)
Lemma load_vocabulary_witness :
  StronglySorted String.le sample_all_sets
  ∧ NoDup sample_all_sets
  ∧ "image_path" ∉ sample_all_sets.
Proof.
  destruct (load_vocabulary sample_signer sample_frame 12 [] _ _ _ _
              sample_loaded_eq) as (Hsorted & Hnodup & _ & Hpath & _).
  done.
Defined.

(** Row 3 of the sample: the request for the bucket [locked] raises, the
    record is kept with no [url] and the text of the exception. *)
Lemma load_image_path_string_witness :
  ∃ records all_sets labels_per_set tr' r,
    load_records_from_csv sample_signer sample_frame 12 []
    = (inr (records, all_sets, labels_per_set), tr')
    ∧ records !! 3 = Some r
    ∧ url r = PNone
    ∧ __sign_error__ r = Some "403 Forbidden".
Proof.
  destruct (load_image_path_string sample_signer sample_frame 12 [] 3
              [PStr "gs://locked/x.png"; PNaN; PNaN] "gs://locked/x.png")
    as (records & all_sets & lps & tr' & r & Hload & _ & Hr & Hbody).
  - compute_done.
  - reflexivity.
  - reflexivity.
  - exists records, all_sets, lps, tr', r.
    split; [exact Hload|]. split; [exact Hr|].
    vm_compute in Hbody. destruct Hbody as (_ & _ & Hurl & Herr).
    split; [exact Hurl|exact Herr].
Defined.

(** The table of the first four sample records. *)
Lemma table_view_layout_witness :
  length (data (table_view true sample_all_sets (take 4 sample_records))) = 4
  ∧ ∃ tail,
      columns (table_view true sample_all_sets (take 4 sample_records))
      = (["Preview"; "URL"] ++ sample_all_sets ++ tail)%list.
Proof.
  destruct (table_view_layout true sample_all_sets (take 4 sample_records))
    as (tail & Hcols & _ & _ & Hlen & _).
  - compute_done.
  - compute_done.
  - compute_done.
  - split; [exact Hlen|]. by exists tail.
Defined.

(** The loop body on row 2 of the sample, whose image-path cell is empty. *)
Lemma empty_image_path_url_is_nan_witness :
  let r := (load_row sample_signer ["species"; "count"] 12
              (zip (columns sample_frame) [PNaN; PStr "   "; PFloat "1.5"])
              []).1 in
  url r = PNaN ∧ ∃ html, grid_cell sample_all_sets r = Markdown html.
Proof.
  pose proof (empty_image_path_url_is_nan sample_signer ["species"; "count"]
                12 (zip (columns sample_frame)
                      [PNaN; PStr "   "; PFloat "1.5"])
                [] sample_all_sets true eq_refl) as H.
  cbv zeta in H. destruct H as (Hurl & _ & _ & _ & Hgrid & _).
  by split.
Defined.

(** ** Where the spec and the code part *)

(** C2 does not hold as the spec states it.  Row 4 of the sample holds the
    cloud-storage URI [s3://bucket/a.jpg]: no signing request is sent for it
    (the trace holds the two [gs://] requests only) and the record's [url]
    is the raw URI.  Row 2 has an empty image-path cell: the record's [url]
    is NaN, not [None]. *)
Lemma load_image_path_counterexample :
  ∃ records all_sets labels_per_set tr',
    load_records_from_csv sample_signer sample_frame 12 []
    = (inr (records, all_sets, labels_per_set), tr')
    ∧ data sample_frame !! 4
      = Some [PStr "s3://bucket/a.jpg"; PStr "cat"; PInt (-2)]
    ∧ url <$> records !! 4 = Some (PStr "s3://bucket/a.jpg")
    ∧ tr' = [request_for "gs://zoo/cat.jpg" 12;
             request_for "gs://locked/x.png" 12]
    ∧ data sample_frame !! 2 = Some [PNaN; PStr "   "; PFloat "1.5"]
    ∧ url <$> records !! 2 = Some PNaN
    ∧ PNaN ≠ PNone.
Proof.
  eexists _, _, _, _. split; [exact sample_loaded_eq|].
  vm_compute. by repeat split.
Qed.

(** C8 does not hold as the spec states it.  In a dataset with a set named
    [Signing error] the table gets a trailing [Signing error] column though
    no record has a signing error; and a record whose signing failed with
    an exception of empty text has a signing error, yet the table gets no
    such column. *)
Lemma table_view_counterexample :
  (∃ records all_sets labels_per_set tr',
     load_records_from_csv sample_signer error_named_frame 12 []
     = (inr (records, all_sets, labels_per_set), tr')
     ∧ __sign_error__ <$> records = [None]
     ∧ columns (table_view false all_sets (filtered [] ∅ records))
       = ["Preview"; "Signing error"; "Signing error"])
  ∧ (∃ records all_sets labels_per_set tr',
       load_records_from_csv silent_signer gs_frame 12 []
       = (inr (records, all_sets, labels_per_set), tr')
       ∧ (λ r, (url r, __sign_error__ r)) <$> records = [(PNone, Some "")]
       ∧ columns (table_view false all_sets (filtered [] ∅ records))
         = ["Preview"; "species"]).
Proof.
  split; eexists _, _, _, _; (split; [vm_compute; reflexivity|]);
    vm_compute; by split.
Qed.

(** * Further properties of the code *)

(** ** Strings *)

Lemma append_cons (a : ascii) (s t : string) :
  String a s +:+ t = String a (s +:+ t).
Proof. reflexivity. Qed.

Lemma list_ascii_of_string_app (s t : string) :
  list_ascii_of_string (s +:+ t)
  = (list_ascii_of_string s ++ list_ascii_of_string t)%list.
Proof.
  induction s as [|a s IH]; [done|].
  rewrite append_cons. cbn [list_ascii_of_string]. by rewrite IH.
Qed.

Lemma partition_slash_no_slash (s : string) :
  "/"%char ∉ list_ascii_of_string s → partition_slash s = (s, "").
Proof.
  induction s as [|a s IH]; [done|]. cbn [list_ascii_of_string partition_slash].
  intros Hnin. apply not_elem_of_cons in Hnin as [Ha Hs].
  rewrite bool_decide_eq_false_2 by done. by rewrite IH.
Qed.

Lemma partition_slash_app (b p : string) :
  "/"%char ∉ list_ascii_of_string b →
  partition_slash (b +:+ "/" +:+ p) = (b, p).
Proof.
  induction b as [|a b IH].
  - intros _. change ("" +:+ "/" +:+ p) with (String "/"%char p).
    cbn [partition_slash]. by rewrite bool_decide_eq_true_2.
  - cbn [list_ascii_of_string]. intros [Ha Hb]%not_elem_of_cons.
    rewrite append_cons. cbn [partition_slash].
    rewrite bool_decide_eq_false_2 by done. by rewrite IH.
Qed.

Lemma partition_slash_fst (s : string) :
  "/"%char ∉ list_ascii_of_string (partition_slash s).1.
Proof.
  induction s as [|a s IH]; cbn [partition_slash].
  - apply not_elem_of_nil.
  - case_bool_decide as Ha; [apply not_elem_of_nil|].
    destruct (partition_slash s) as [b p]. cbn [fst list_ascii_of_string] in *.
    apply not_elem_of_cons. split; [congruence|done].
Qed.

(** A [gs://] URI made of a bucket without a slash, a slash and a path
    parses into that bucket and that path; one without a slash after the
    bucket parses into the bucket and the empty path; and the bucket that
    comes out never holds a slash. *)
Theorem parse_gs_uri_round_trip :
  (∀ bucket path, "/"%char ∉ list_ascii_of_string bucket →
     _parse_gs_uri ("gs://" +:+ bucket +:+ "/" +:+ path) = (bucket, path))
  ∧ (∀ bucket, "/"%char ∉ list_ascii_of_string bucket →
       _parse_gs_uri ("gs://" +:+ bucket) = (bucket, ""))
  ∧ (∀ gs_uri, "/"%char ∉ list_ascii_of_string (_parse_gs_uri gs_uri).1).
Proof.
  split; [|split].
  - intros bucket path Hb. unfold _parse_gs_uri.
    change (slice_from (String.length "gs://")
              ("gs://" +:+ bucket +:+ "/" +:+ path))
      with (bucket +:+ "/" +:+ path).
    by apply partition_slash_app.
  - intros bucket Hb. unfold _parse_gs_uri.
    change (slice_from (String.length "gs://") ("gs://" +:+ bucket))
      with bucket.
    by apply partition_slash_no_slash.
  - intros gs_uri. apply partition_slash_fst.
Qed.

Lemma lstrip_head (s : string) :
  lstrip s = "" ∨ ∃ a t, lstrip s = String a t ∧ isspace a = false.
Proof.
  induction s as [|a s IH]; [by left|]. cbn [lstrip].
  destruct (isspace a) eqn:Ha; [done|]. right. eauto.
Qed.

Lemma rstrip_cons (a : ascii) (t : string) :
  isspace a = false → rstrip (String a t) = String a (rstrip t).
Proof. intros Ha. cbn [rstrip]. rewrite Ha. by destruct (rstrip t). Qed.

Lemma rstrip_idempotent (s : string) : rstrip (rstrip s) = rstrip s.
Proof.
  induction s as [|a s IH]; [done|]. cbn [rstrip].
  destruct (rstrip s) as [|b r] eqn:Hr.
  - destruct (isspace a) eqn:Ha; [done|]. cbn [rstrip]. by rewrite Ha.
  - change (rstrip (String a (String b r))) with
      (match rstrip (String b r) with
       | "" => if isspace a then "" else String a ""
       | r' => String a r'
       end).
    by rewrite IH.
Qed.

Lemma strip_idempotent (s : string) : strip (strip s) = strip s.
Proof.
  unfold strip. destruct (lstrip_head s) as [->|(a & t & -> & Ha)]; [done|].
  rewrite rstrip_cons by done. cbn [lstrip]. rewrite Ha.
  rewrite rstrip_cons by done. by rewrite rstrip_idempotent.
Qed.

Lemma strip_head (s : string) (a : ascii) (t : string) :
  strip s = String a t → isspace a = false.
Proof.
  unfold strip. destruct (lstrip_head s) as [->|(b & u & -> & Hb)]; [done|].
  rewrite rstrip_cons by done. by intros [= <- _].
Qed.

(** [html.escape] leaves none of the characters that open or close a tag or
    an attribute value: no [<], [>], double quote or single quote. *)
Theorem html_escape_safe (s : string) :
  Forall (λ c, c ≠ "<"%char ∧ c ≠ ">"%char ∧ c ≠ ascii_of_nat 34
               ∧ c ≠ "'"%char)
         (list_ascii_of_string (html_escape s)).
Proof.
  induction s as [|a s IH]; [constructor|]. cbn [html_escape].
  repeat case_bool_decide; rewrite ?list_ascii_of_string_app;
    try (apply Forall_app; split; [|done]);
    try (cbn [list_ascii_of_string]; constructor; [done|done]).
  all: cbn [list_ascii_of_string]; repeat constructor; done.
Qed.

(** ** More on loading *)

Section load_more.

Variable generate_signed_url : trace → sign_request → sign_outcome.

Local Abbreviation load := (load_records_from_csv generate_signed_url).
Local Abbreviation annotation_cols_of df :=
  (filter (λ c, c ∉ NON_ANNOTATION_COLS) (columns df)).

Lemma resolve_url_trace (row : Series) (expiry_hours : Z) (tr : trace) :
  (resolve_url generate_signed_url row expiry_hours tr).2
  = (tr ++ requests_of expiry_hours row)%list.
Proof.
  unfold requests_of.
  destruct (series_get row "image_path") as [|u| | | |] eqn:Hcell;
    try (rewrite resolve_url_other;
         [by rewrite app_nil_r|intros u' Hu'; congruence]).
  destruct (startswith u "gs://") eqn:Hgs.
  - rewrite (resolve_url_gs _ _ _ _ _ Hcell Hgs).
    by destruct (generate_signed_url _ _).
  - rewrite resolve_url_other; [by rewrite app_nil_r|].
    intros u' Hu'. congruence.
Qed.

Lemma load_rows_trace (annotation_cols : list string) (expiry_hours : Z)
    (rows : list Series) (tr : trace) :
  (load_rows generate_signed_url annotation_cols expiry_hours rows tr).2
  = (tr ++ concat (requests_of expiry_hours <$> rows))%list.
Proof.
  induction rows as [|row rows IH] using rev_ind.
  - by rewrite app_nil_r.
  - rewrite load_rows_snoc. cbn [snd].
    rewrite load_row_resolve. cbv zeta. cbn [snd].
    rewrite resolve_url_trace, IH, fmap_app, concat_app. cbn [fmap list_fmap concat].
    by rewrite app_nil_r, app_assoc.
Qed.

Lemma requests_of_hours (expiry_hours : Z) (row : Series) :
  Forall (λ rq, sr_hours rq = expiry_hours) (requests_of expiry_hours row).
Proof.
  unfold requests_of. destruct (series_get row "image_path"); try constructor.
  destruct (startswith _ _); repeat constructor.
Qed.

Lemma requests_of_length (expiry_hours : Z) (row : Series) :
  (length (requests_of expiry_hours row) ≤ 1)%nat.
Proof.
  unfold requests_of. destruct (series_get row "image_path"); simpl; try lia.
  destruct (startswith _ _); simpl; lia.
Qed.

Lemma requests_length (expiry_hours : Z) (rows : list Series) :
  (length (concat (requests_of expiry_hours <$> rows)) ≤ length rows)%nat.
Proof.
  induction rows as [|row rows IH]; [done|].
  cbn [fmap list_fmap concat]. rewrite length_app. cbn [length].
  pose proof (requests_of_length expiry_hours row). lia.
Qed.

(** Loading sends the signing requests of the rows whose image-path cell is
    a [gs://] string, one each, in row order and all for [expiry_hours]
    hours, and nothing else; a frame without the image-path column sends
    none. *)
Theorem load_requests (df : DataFrame) (expiry_hours : Z) (tr : trace) :
  let sent :=
    if bool_decide ("image_path" ∈ columns df)
    then concat (requests_of expiry_hours <$> iterrows df) else [] in
  (load df expiry_hours tr).2 = (tr ++ sent)%list
  ∧ Forall (λ rq, sr_hours rq = expiry_hours) sent
  ∧ (length sent ≤ length (data df))%nat.
Proof.
  cbv zeta. case_bool_decide as Hin.
  - split; [|split].
    + rewrite load_unfold by done. cbv zeta. cbn [snd].
      apply load_rows_trace.
    + apply Forall_concat, Forall_fmap, Forall_forall. intros row _.
      apply requests_of_hours.
    + pose proof (requests_length expiry_hours (iterrows df)) as Hlen.
      unfold iterrows in Hlen at 2. by rewrite length_fmap in Hlen.
  - split; [|split; [constructor|simpl; lia]].
    unfold load_records_from_csv. rewrite bool_decide_eq_true_2 by done.
    by rewrite app_nil_r.
Qed.

(** Every label list a loaded record holds is one text, not empty and
    already stripped: stripping it again changes nothing, and it does not
    start with a whitespace character. *)
Theorem load_labels_normalised (df : DataFrame) (expiry_hours : Z)
    (tr tr' : trace) (records : list record) (all_sets : list string)
    (labels_per_set : gmap string (list string)) (r : record) (s : string)
    (vals : list string) :
  load df expiry_hours tr = (inr (records, all_sets, labels_per_set), tr') →
  r ∈ records →
  labels_by_set r !! s = Some vals →
  ∃ v, vals = [v] ∧ v ≠ "" ∧ strip v = v
       ∧ ∀ a t, v = String a t → isspace a = false.
Proof.
  intros (_ & -> & _)%load_inv Hr Hs.
  apply load_rows_elem_of in Hr as (row & tr0 & _ & ->).
  rewrite load_row_labels, build_labels_lookup in Hs.
  destruct (decide (s ∈ _)); [|done].
  apply cell_label_Some in Hs as [-> Hne].
  eexists. split; [done|]. split; [done|]. split; [apply strip_idempotent|].
  intros a t. apply strip_head.
Qed.

Lemma resolve_url_error (row : Series) (expiry_hours : Z) (tr : trace)
    (e : string) :
  (resolve_url generate_signed_url row expiry_hours tr).1.2 = Some e →
  (resolve_url generate_signed_url row expiry_hours tr).1.1 = PNone.
Proof.
  destruct (series_get row "image_path") as [|u| | | |] eqn:Hcell;
    try (rewrite resolve_url_other; [done|intros u' Hu'; congruence]).
  destruct (startswith u "gs://") eqn:Hgs.
  - rewrite (resolve_url_gs _ _ _ _ _ Hcell Hgs).
    by destruct (generate_signed_url _ _).
  - rewrite resolve_url_other; [done|]. intros u' Hu'. congruence.
Qed.

(** A loaded record that carries a signing error has no [url]: the grid
    shows "No preview" for it and the table's URL cell is the empty
    string. *)
Theorem load_failed_signing_views (df : DataFrame) (expiry_hours : Z)
    (tr tr' : trace) (records : list record) (all_sets : list string)
    (labels_per_set : gmap string (list string)) (r : record) (e : string) :
  load df expiry_hours tr = (inr (records, all_sets, labels_per_set), tr') →
  r ∈ records →
  __sign_error__ r = Some e →
  url r = PNone
  ∧ grid_cell all_sets r = Caption "No preview"
  ∧ or (url r) (PStr "") = PStr "".
Proof.
  intros (_ & -> & _)%load_inv Hr He.
  apply load_rows_elem_of in Hr as (row & tr0 & _ & ->).
  rewrite load_row_resolve in He |- *. cbv zeta in *.
  cbn [__sign_error__ url fst] in *.
  apply resolve_url_error in He. unfold grid_cell. cbn [url].
  by rewrite He.
Qed.

(** The sets the filter offers are exactly those that match something:
    requiring a set alone keeps at least one loaded record if and only if
    the set is in [all_sets]. *)
Theorem offered_sets_match (df : DataFrame) (expiry_hours : Z)
    (tr tr' : trace) (records : list record) (all_sets : list string)
    (labels_per_set : gmap string (list string)) (s : string) :
  load df expiry_hours tr = (inr (records, all_sets, labels_per_set), tr') →
  s ∈ all_sets ↔ filtered [s] ∅ records ≠ [].
Proof.
  intros (_ & _ & -> & _)%load_inv.
  rewrite elem_of_sorted, elem_of_elements, elem_of_sets_of.
  assert (Hmatch : ∀ r,
    record_matches_filters [s] ∅ r = true ↔ s ∈ dom (labels_by_set r)).
  { intros r. rewrite record_matches_filters_forall, elem_of_dom. split.
    - intros Hr. destruct (Hr s) as (vals & Hs & _); [by left|eauto].
    - intros [vals Hs] s' ->%list_elem_of_singleton. exists vals.
      split; [done|]. rewrite lookup_empty. by intros v ?%elem_of_nil. }
  split.
  - intros (r & Hr & Hs) Hnil.
    assert (r ∈ filtered [s] ∅ records) as Hin
      by (apply list_elem_of_filter; split; [by apply Hmatch|done]).
    rewrite Hnil in Hin. by apply elem_of_nil in Hin.
  - intros Hne. destruct (filtered [s] ∅ records) as [|r rs] eqn:Hf; [done|].
    assert (r ∈ filtered [s] ∅ records) as Hin by (rewrite Hf; left).
    apply list_elem_of_filter in Hin as [Hr Hin]. exists r.
    split; [done|]. by apply Hmatch.
Qed.

(** Likewise for the values the filter offers under a set: requiring one
    value keeps at least one loaded record if and only if the value is
    listed for the set in [labels_per_set]. *)
Theorem offered_labels_match (df : DataFrame) (expiry_hours : Z)
    (tr tr' : trace) (records : list record) (all_sets : list string)
    (labels_per_set : gmap string (list string)) (s v : string) :
  load df expiry_hours tr = (inr (records, all_sets, labels_per_set), tr') →
  v ∈ default [] (labels_per_set !! s)
  ↔ filtered [s] {[s := [v]]} records ≠ [].
Proof.
  intros (_ & _ & Hsets & ->)%load_inv.
  assert (Hmatch : ∀ r,
    record_matches_filters [s] {[s := [v]]} r = true
    ↔ ∃ vals, labels_by_set r !! s = Some vals ∧ v ∈ vals).
  { intros r. rewrite record_matches_filters_forall. split.
    - intros Hr. destruct (Hr s) as (vals & Hs & Hv); [by left|].
      exists vals. split; [done|]. apply Hv.
      rewrite lookup_singleton_eq. by left.
    - intros (vals & Hs & Hv) s' ->%list_elem_of_singleton. exists vals.
      split; [done|]. rewrite lookup_singleton_eq.
      by intros v' ->%list_elem_of_singleton. }
  rewrite foldl_insert_lookup, lookup_empty.
  assert (Hoffered :
    v ∈ default [] (if decide (s ∈ all_sets)
                    then Some (sorted (elements (labels_of records s)))
                    else None)
    ↔ ∃ r vals, r ∈ records ∧ labels_by_set r !! s = Some vals ∧ v ∈ vals).
  { destruct (decide (s ∈ all_sets)) as [Hin|Hnin]; cbn [from_option id].
    - by rewrite elem_of_sorted, elem_of_elements, elem_of_labels_of.
    - split; [by intros ?%elem_of_nil|]. intros (r & vals & Hr & Hs & _).
      destruct Hnin. rewrite Hsets, elem_of_sorted, elem_of_elements.
      apply elem_of_sets_of. exists r. split; [done|].
      apply elem_of_dom. eauto. }
  rewrite Hoffered. split.
  - intros (r & vals & Hr & Hs & Hv) Hnil.
    assert (r ∈ filtered [s] {[s := [v]]} records) as Hin
      by (apply list_elem_of_filter; split; [apply Hmatch; eauto|done]).
    rewrite Hnil in Hin. by apply elem_of_nil in Hin.
  - intros Hne.
    destruct (filtered [s] {[s := [v]]} records) as [|r rs] eqn:Hf; [done|].
    assert (r ∈ filtered [s] {[s := [v]]} records) as Hin
      by (rewrite Hf; left).
    apply list_elem_of_filter in Hin as [Hr Hin].
    apply Hmatch in Hr as (vals & ? & ?). eauto.
Qed.

(** A loaded record holds one value per set, so requiring two different
    values of one selected set matches no record at all. *)
Theorem two_required_values_match_nothing (df : DataFrame)
    (expiry_hours : Z) (tr tr' : trace) (records : list record)
    (all_sets : list string) (labels_per_set : gmap string (list string))
    (sets_filter : list string)
    (selected_labels_per_set : gmap string (list string)) (s v1 v2 : string) :
  load df expiry_hours tr = (inr (records, all_sets, labels_per_set), tr') →
  s ∈ sets_filter →
  v1 ∈ default [] (selected_labels_per_set !! s) →
  v2 ∈ default [] (selected_labels_per_set !! s) →
  v1 ≠ v2 →
  filtered sets_filter selected_labels_per_set records = [].
Proof.
  intros Hload Hs Hv1 Hv2 Hne.
  destruct (filtered _ _ records) as [|r rs] eqn:Hf; [done|].
  assert (r ∈ filtered sets_filter selected_labels_per_set records) as Hin
    by (rewrite Hf; left).
  apply list_elem_of_filter in Hin as [Hr Hin].
  pose proof (proj1 (record_matches_filters_forall _ _ _) Hr s Hs)
    as (vals & Hvals & Hall).
  destruct (load_record_label _ _ _ _ _ _ _ _ _ _ _ Hload Hin Hvals)
    as (_ & _ & v & -> & _).
  apply Hall in Hv1, Hv2.
  apply list_elem_of_singleton in Hv1, Hv2. congruence.
Qed.

End load_more.

(** ** More on the filter *)

Lemma record_matches_filters_app (sets_filter sets_filter' : list string)
    (selected : gmap string (list string)) (rec : record) :
  record_matches_filters (sets_filter ++ sets_filter') selected rec = true
  ↔ record_matches_filters sets_filter selected rec = true
    ∧ record_matches_filters sets_filter' selected rec = true.
Proof.
  rewrite !record_matches_filters_forall. split.
  - intros Hall. split; intros s Hs; apply Hall, elem_of_app; auto.
  - intros [Hl Hr] s [Hs|Hs]%elem_of_app; auto.
Qed.

(** Constraints compose: filtering by two lists of sets at once is
    filtering by the first and then by the second.  So the result is a
    sublist of the records, in their order, and filtering it again by the
    same constraint changes nothing. *)
Theorem filtered_app (sets_filter sets_filter' : list string)
    (selected : gmap string (list string)) (records : list record) :
  filtered (sets_filter ++ sets_filter') selected records
  = filtered sets_filter' selected (filtered sets_filter selected records)
  ∧ filtered sets_filter selected records `sublist_of` records
  ∧ filtered sets_filter selected (filtered sets_filter selected records)
    = filtered sets_filter selected records.
Proof.
  unfold filtered. split; [|split].
  - rewrite list_filter_filter. apply list_filter_iff. intros r.
    rewrite record_matches_filters_app. tauto.
  - apply sublist_filter.
  - rewrite list_filter_filter. apply list_filter_iff. tauto.
Qed.

(** Only which sets are selected and which values are required for them
    matters: the order of the selections and repeated entries do not change
    what is matched. *)
Theorem filtered_same_selection (sets_filter sets_filter' : list string)
    (selected selected' : gmap string (list string))
    (records : list record) :
  (∀ s, s ∈ sets_filter ↔ s ∈ sets_filter') →
  (∀ s v, s ∈ sets_filter →
     v ∈ default [] (selected !! s) ↔ v ∈ default [] (selected' !! s)) →
  filtered sets_filter selected records
  = filtered sets_filter' selected' records.
Proof.
  intros Hsets Hvals. unfold filtered. apply list_filter_iff. intros r.
  rewrite !record_matches_filters_forall. split.
  - intros Hr s Hs. apply Hsets in Hs.
    destruct (Hr s Hs) as (vals & Hv & Hall). exists vals. split; [done|].
    intros v Hreq. apply Hall. by apply Hvals.
  - intros Hr s Hs. destruct (Hr s (proj1 (Hsets s) Hs)) as (vals & Hv & Hall).
    exists vals. split; [done|]. intros v Hreq. apply Hall. by apply Hvals.
Qed.

(** ** The pages *)

Lemma ceil_div_bounds (len n : nat) :
  n ≠ 0 →
  (len ≤ (len + n - 1) / n * n ∧ (len + n - 1) / n * n < len + n)%nat.
Proof.
  intros Hn. pose proof (Nat.div_mod_eq (len + n - 1) n) as Hdm.
  pose proof (Nat.mod_upper_bound (len + n - 1) n Hn) as Hmod.
  nia.
Qed.

Lemma concat_slices {A} (lst : list A) (n m : nat) :
  concat ((λ i, take n (drop i lst)) <$> ((λ k, k * n) <$> seq 0 m))
  = take (m * n) lst.
Proof.
  induction m as [|m IH]; [done|].
  rewrite seq_S, !fmap_app, concat_app, IH. cbn [fmap list_fmap concat].
  rewrite app_nil_r, take_take_drop. f_equal. lia.
Qed.

Lemma chunks_inr {A} (lst : list A) (n : nat) :
  n ≠ 0 →
  chunks lst n
  = inr ((λ i, take n (drop i lst)) <$> range_from_0 (length lst) n).
Proof. intros Hn. unfold chunks. by rewrite bool_decide_eq_false_2. Qed.

Lemma chunks_concat {A} (lst : list A) (n : nat) :
  n ≠ 0 →
  concat ((λ i, take n (drop i lst)) <$> range_from_0 (length lst) n) = lst.
Proof.
  intros Hn. unfold range_from_0. rewrite concat_slices.
  apply take_ge. by apply ceil_div_bounds.
Qed.

Lemma chunks_lookup {A} (lst : list A) (n k : nat) (row : list A) :
  n ≠ 0 →
  ((λ i, take n (drop i lst)) <$> range_from_0 (length lst) n) !! k
    = Some row →
  row = take n (drop (k * n) lst)
  ∧ (k * n < length lst)%nat
  ∧ length row = Nat.min n (length lst - k * n).
Proof.
  intros Hn. unfold range_from_0. rewrite !list_lookup_fmap.
  destruct (seq 0 _ !! k) as [j|] eqn:Hj; [|done].
  apply lookup_seq in Hj as [-> Hk]. cbn [fmap option_fmap option_map].
  intros [= <-]. split; [done|].
  pose proof (ceil_div_bounds (length lst) n Hn) as [_ Hup].
  split; [nia|]. by rewrite length_take, length_drop.
Qed.

(** [chunks] cuts a list into consecutive pieces: joined again they are the
    list, there are [ceil(len / n)] of them, none is empty, none is longer
    than [n] and all but the last have [n] elements.  A chunk size of zero
    raises [ValueError]. *)
Theorem chunks_spec {A} (lst : list A) (n : nat) :
  (n = 0 →
   chunks lst n = inl (ValueError "range() arg 3 must not be zero"))
  ∧ (n ≠ 0 →
     ∃ rows, chunks lst n = inr rows
       ∧ concat rows = lst
       ∧ length rows = ((length lst + n - 1) / n)%nat
       ∧ (∀ k row, rows !! k = Some row →
            (0 < length row ≤ n)%nat
            ∧ (S k < length rows → length row = n)%nat)).
Proof.
  split.
  - intros ->. done.
  - intros Hn. eexists. split; [by apply chunks_inr|].
    split; [by apply chunks_concat|]. split.
    + unfold range_from_0. by rewrite !length_fmap, length_seq.
    + intros k row Hrow.
      pose proof (chunks_lookup _ _ _ _ Hn Hrow) as (_ & Hk & Hlen).
      split; [lia|]. unfold range_from_0.
      rewrite !length_fmap, length_seq. intros Hlast.
      pose proof (ceil_div_bounds (length lst) n Hn) as [_ Hup]. nia.
Qed.

Lemma grid_row_cells (all_sets : list string) (row : list record) :
  (length row ≤ n_cols)%nat →
  let cells := (λ '(col, rec), (col, grid_cell all_sets rec))
                 <$> zip (seq 0 n_cols) row in
  cells.*2 = grid_cell all_sets <$> row
  ∧ cells.*1 = seq 0 (length row).
Proof.
  intros Hlen. cbv zeta. split.
  - rewrite <- list_fmap_compose.
    rewrite (list_fmap_ext _ (grid_cell all_sets ∘ snd) (zip (seq 0 n_cols) row))
      by (by intros ? [? ?]).
    rewrite list_fmap_compose. f_equal. apply snd_zip.
    by rewrite length_seq.
  - rewrite <- list_fmap_compose.
    rewrite (list_fmap_ext _ fst (zip (seq 0 n_cols) row))
      by (by intros ? [? ?]).
    unfold n_cols in *.
    destruct row as [|r1 [|r2 [|r3 [|r4 [|r5 row]]]]]; try done.
    simpl in Hlen. lia.
Qed.

(** The grid page never raises.  It opens with the line of counts; without
    a filtered record it shows the notice and nothing else; otherwise its
    rows hold the cells of the filtered records, every record once and in
    order, at most [n_cols] to a row and from the first column on. *)
Theorem grid_page_shows_all (records : list record) (all_sets : list string)
    (filtered : list record) :
  ∃ rows,
    grid_page records all_sets filtered
    = inr (st_markdown (counts_line records all_sets filtered)
           :: (if bool_decide (filtered = [])
               then [st_info "No images match the current filters."]
               else st_columns <$> rows))
    ∧ concat ((λ cells, cells.*2) <$> rows) = grid_cell all_sets <$> filtered
    ∧ Forall (λ cells, cells.*1 = seq 0 (length cells)
                       ∧ (0 < length cells ≤ n_cols)%nat) rows.
Proof.
  unfold grid_page. cbv zeta. case_bool_decide as Hnil.
  { exists []. subst. split; [done|]. split; [done|constructor]. }
  rewrite chunks_inr by done.
  set (cs := (λ i, take n_cols (drop i filtered))
               <$> range_from_0 (length filtered) n_cols).
  assert (Hcs : Forall (λ row, (0 < length row ≤ n_cols)%nat) cs).
  { apply Forall_lookup. intros k row Hrow.
    apply chunks_lookup in Hrow as (_ & ? & ?); [|done].
    unfold n_cols in *. lia. }
  exists ((λ row, (λ '(col, rec), (col, grid_cell all_sets rec))
                    <$> zip (seq 0 n_cols) row) <$> cs).
  split; [by rewrite <- list_fmap_compose|]. split.
  - rewrite <- list_fmap_compose.
    assert (Hconcat : concat cs = filtered) by (by apply chunks_concat).
    rewrite <- Hconcat. clear Hconcat.
    clearbody cs. induction Hcs as [|row cs Hrow _ IH]; [done|].
    cbn [fmap list_fmap concat compose]. rewrite fmap_app. f_equal; [|done].
    apply grid_row_cells. lia.
  - clearbody cs. induction Hcs as [|row cs Hrow _ IH]; [constructor|].
    cbn [fmap list_fmap]. constructor; [|done].
    destruct (grid_row_cells all_sets row) as [_ Hcols]; [lia|].
    assert (Hlen : length ((λ '(col, rec), (col, grid_cell all_sets rec))
                     <$> zip (seq 0 n_cols) row) = length row).
    { rewrite length_fmap, length_zip, length_seq. lia. }
    rewrite Hlen. split; [done|lia].
Qed.

(** The table page shows the notice instead of the table exactly when no
    record is left after filtering. *)
Theorem table_page_empty (show_url : bool) (records : list record)
    (all_sets : list string) (filtered : list record) :
  table_page show_url records all_sets filtered
  = [st_markdown (counts_line records all_sets filtered);
     if bool_decide (filtered = [])
     then st_info "No images match the current filters."
     else st_dataframe (table_view show_url all_sets filtered)].
Proof.
  unfold table_page. cbv zeta. f_equal. f_equal. unfold df_empty.
  assert (Hcols : columns (table_view show_url all_sets filtered) ≠ [])
    by done.
  rewrite (bool_decide_eq_false_2 _ Hcols). cbn [orb].
  unfold table_view. cbv zeta. rewrite reindex_of_dicts_data.
  destruct filtered as [|r rs]; [done|].
  rewrite (bool_decide_eq_false_2 (r :: rs = [])) by done.
  rewrite bool_decide_eq_false_2; [done|]. by rewrite !fmap_cons.
Qed.

(** Whatever the filtered records and the names of the sets: the table's
    columns are [Preview], [URL] when toggled on and the sets, followed by
    at most one [Signing error] column, which is there exactly when some
    filtered record has a signing error with text or a set is itself named
    [Signing error] and there is a record to show. *)
Theorem table_view_columns (show_url : bool) (all_sets : list string)
    (filtered : list record) :
  ∃ tail,
    columns (table_view show_url all_sets filtered)
    = (["Preview"] ++ (if show_url then ["URL"] else []) ++ all_sets
       ++ tail)%list
    ∧ (tail = [] ∨ tail = ["Signing error"])
    ∧ (tail = ["Signing error"]
       ↔ ∃ r, r ∈ filtered
           ∧ ((∃ e, __sign_error__ r = Some e ∧ e ≠ "")
              ∨ "Signing error" ∈ all_sets)).
Proof.
  unfold table_view. cbv zeta.
  set (df := DataFrame_of_dicts (to_row show_url all_sets <$> filtered)).
  assert (Hcol : "Signing error" ∈ columns df
    ↔ ∃ r, r ∈ filtered
        ∧ ((∃ e, __sign_error__ r = Some e ∧ e ≠ "")
           ∨ "Signing error" ∈ all_sets)).
  { unfold df. rewrite elem_of_frame_columns.
    assert (Hkey : ∀ r,
      "Signing error" ∈ dict_keys (to_row show_url all_sets r)
      ↔ (∃ e, __sign_error__ r = Some e ∧ e ≠ "")
        ∨ "Signing error" ∈ all_sets).
    { intros r. rewrite elem_of_dict_keys, to_row_get, <- sign_error_cell_Some.
      rewrite decide_True by done.
      destruct (sign_error_cell r) as [v|].
      - split; [left; eauto|eauto].
      - destruct (decide ("Signing error" ∈ all_sets)) as [Hin|Hnin].
        + split; [by right|eauto].
        + destruct (decide ("Signing error" = "URL" ∧ show_url = true))
            as [[? _]|_]; [done|].
          rewrite decide_False by done.
          split; [by intros [? ?]|]. by intros [[? ?]|?]. }
    split.
    - intros (d & (r & -> & Hr)%list_elem_of_fmap & Hk). exists r.
      split; [done|]. by apply Hkey.
    - intros (r & Hr & Hk). exists (to_row show_url all_sets r). split.
      + apply list_elem_of_fmap. eauto.
      + by apply Hkey. }
  exists (if bool_decide ("Signing error" ∈ columns df)
          then ["Signing error"] else []).
  split; [done|]. rewrite <- Hcol. case_bool_decide.
  - split; [by right|done].
  - split; [by left|]. split; [done|]. by intros ?.
Qed.

(** ** The view mode *)

(** When the parameter is not written back, it already stands for the view
    that is shown; what is written for a view, read back as a string or as
    a one-element list, selects that view again and is not written a
    second time; and a missing parameter selects the table. *)
Theorem view_param_round_trip :
  (∀ p mode, view_param_is_stale p mode = false →
     radio_option (_initial_index p) = mode)
  ∧ (∀ mode,
       radio_option (_initial_index (QStr (_desired_view mode))) = mode
       ∧ radio_option (_initial_index (QList [_desired_view mode])) = mode
       ∧ view_param_is_stale (QStr (_desired_view mode)) mode = false
       ∧ view_param_is_stale (QList [_desired_view mode]) mode = false)
  ∧ (∀ p, first_view_param p = None → radio_option (_initial_index p) = Table).
Proof.
  split; [|split].
  - intros p mode. unfold view_param_is_stale, _initial_index.
    rewrite negb_false_iff, bool_decide_eq_true.
    destruct (first_view_param p) as [s|].
    + case_bool_decide as Hs.
      * subst s. by destruct mode.
      * intros ->. by destruct mode.
    + by destruct mode.
  - by intros [].
  - intros p Hp. unfold _initial_index. by rewrite Hp.
Qed.

(** ** The label menu *)

Lemma items_loop (all_sets : list string) (rec : record)
    (items : list string) :
  foldl (λ items set_name,
           let vals := default [] (labels_by_set rec !! set_name) in
           if negb (bool_decide (vals = [])) then
             (items ++
               ["<div class=" +:+ dq +:+ "label-item" +:+ dq +:+ ">"
                +:+ "<span class=" +:+ dq +:+ "set" +:+ dq +:+ ">"
                +:+ html_escape set_name +:+ ":</span>"
                +:+ "<span class=" +:+ dq +:+ "vals" +:+ dq +:+ ">"
                +:+ html_escape (join ", " vals) +:+ "</span>"
                +:+ "</div>"])%list
           else items)
        items all_sets
  = (items ++ (label_item rec
                 <$> filter (λ s, default [] (labels_by_set rec !! s) ≠ [])
                            all_sets))%list.
Proof.
  revert items. induction all_sets as [|s all_sets IH]; intros items.
  - by rewrite app_nil_r.
  - cbn [foldl]. rewrite IH, filter_cons. cbv zeta.
    case_bool_decide as Hvals; cbn [negb].
    + by rewrite decide_False by (by intros ?).
    + rewrite decide_True by done. by rewrite fmap_cons, <- app_assoc.
Qed.

Lemma items_html_present (all_sets : list string) (rec : record) :
  items_html all_sets rec =
  let present :=
    filter (λ s, default [] (labels_by_set rec !! s) ≠ []) all_sets in
  if bool_decide (present = []) then [no_labels_item]
  else label_item rec <$> present.
Proof.
  unfold items_html. cbv zeta. rewrite items_loop, app_nil_l.
  destruct (filter _ all_sets) as [|s present]; [done|].
  by rewrite bool_decide_eq_false_2.
Qed.

Section menu.

Variable generate_signed_url : trace → sign_request → sign_outcome.

(** For a loaded record the label menu lists the record's own sets, all of
    them and nothing else, in the order of [all_sets]; it falls back to
    "No labels" exactly when the record has no label at all. *)
Theorem menu_lists_labels (df : DataFrame) (expiry_hours : Z)
    (tr tr' : trace) (records : list record) (all_sets : list string)
    (labels_per_set : gmap string (list string)) (r : record) :
  load_records_from_csv generate_signed_url df expiry_hours tr
  = (inr (records, all_sets, labels_per_set), tr') →
  r ∈ records →
  items_html all_sets r
  = (if bool_decide (labels_by_set r = ∅) then [no_labels_item]
     else label_item r <$> filter (λ s, s ∈ dom (labels_by_set r)) all_sets)
  ∧ (∀ s, s ∈ dom (labels_by_set r)
          ↔ s ∈ filter (λ s, s ∈ dom (labels_by_set r)) all_sets).
Proof.
  intros Hload Hr.
  pose proof (load_inv _ _ _ _ _ _ _ _ Hload) as (_ & _ & Hsets & _).
  assert (Hkeys : ∀ s, s ∈ dom (labels_by_set r) → s ∈ all_sets).
  { intros s Hs. rewrite Hsets, elem_of_sorted, elem_of_elements.
    apply elem_of_sets_of. eauto. }
  assert (Hvals : ∀ s, default [] (labels_by_set r !! s) ≠ []
                       ↔ s ∈ dom (labels_by_set r)).
  { intros s. rewrite elem_of_dom.
    destruct (labels_by_set r !! s) as [vals|] eqn:Hs; cbn [from_option id].
    - destruct (load_record_label _ _ _ _ _ _ _ _ _ _ _ Hload Hr Hs)
        as (_ & _ & v & -> & _). split; [eauto|done].
    - split; [done|]. by intros [? ?]. }
  split.
  - rewrite items_html_present. cbv zeta.
    rewrite (list_filter_iff _ (λ s, s ∈ dom (labels_by_set r)) _ Hvals).
    destruct (decide (labels_by_set r = ∅)) as [Hempty|Hempty].
    + rewrite (bool_decide_eq_true_2 (labels_by_set r = ∅)) by done.
      assert (Hnone : ∀ s, s ∉ dom (labels_by_set r)).
      { intros s. rewrite Hempty, dom_empty_L. apply not_elem_of_empty. }
      rewrite bool_decide_eq_true_2; [done|]. clear -Hnone.
      induction all_sets as [|s l IH]; [done|].
      rewrite filter_cons. by rewrite decide_False by apply Hnone.
    + rewrite (bool_decide_eq_false_2 (labels_by_set r = ∅)) by done.
      rewrite bool_decide_eq_false_2; [done|]. intros Hnil.
      apply Hempty. apply map_empty. intros s.
      destruct (labels_by_set r !! s) as [vals|] eqn:Hs; [|done].
      assert (s ∈ filter (λ s, s ∈ dom (labels_by_set r)) all_sets) as Hin.
      { apply list_elem_of_filter.
        assert (s ∈ dom (labels_by_set r)) by (apply elem_of_dom; eauto).
        auto. }
      rewrite Hnil in Hin. by apply elem_of_nil in Hin.
  - intros s. rewrite list_elem_of_filter. split; [auto|tauto].
Qed.

End menu.

(** ** The further properties at the sample *)

Lemma sample_record_elem_of (i : nat) :
  (i < 5)%nat → sample_record i ∈ sample_records.
Proof.
  intros Hi. apply (list_elem_of_lookup_2 _ i).
  do 5 (destruct i as [|i]; [vm_compute; reflexivity|]). lia.
Qed.

(** Row 1 of the sample holds [" dog "] under [species]: the record holds
    ["dog"]. *)
Lemma load_labels_normalised_witness :
  ∃ v, ["dog"] = [v] ∧ v ≠ "" ∧ strip v = v
       ∧ ∀ a t, v = String a t → isspace a = false.
Proof.
  apply (load_labels_normalised sample_signer sample_frame 12 [] _ _ _ _
           (sample_record 1) "species" ["dog"] sample_loaded_eq).
  - apply sample_record_elem_of. lia.
  - vm_compute. reflexivity.
Defined.

(** Record 3 of the sample, whose request for the bucket [locked] raised. *)
Lemma load_failed_signing_views_witness :
  url (sample_record 3) = PNone
  ∧ grid_cell sample_all_sets (sample_record 3) = Caption "No preview"
  ∧ or (url (sample_record 3)) (PStr "") = PStr "".
Proof.
  apply (load_failed_signing_views sample_signer sample_frame 12 [] _ _ _ _
           (sample_record 3) "403 Forbidden" sample_loaded_eq).
  - apply sample_record_elem_of. lia.
  - vm_compute. reflexivity.
Defined.

Lemma offered_sets_match_witness :
  "species" ∈ sample_all_sets ↔ filtered ["species"] ∅ sample_records ≠ [].
Proof.
  exact (offered_sets_match sample_signer sample_frame 12 [] _ _ _ _
           "species" sample_loaded_eq).
Defined.

Lemma offered_labels_match_witness :
  "dog" ∈ default [] (sample_labels_per_set !! "species")
  ↔ filtered ["species"] {["species" := ["dog"]]} sample_records ≠ [].
Proof.
  exact (offered_labels_match sample_signer sample_frame 12 [] _ _ _ _
           "species" "dog" sample_loaded_eq).
Defined.

(** No record of the sample is both a cat and a dog. *)
Lemma two_required_values_match_nothing_witness :
  filtered ["species"] {["species" := ["cat"; "dog"]]} sample_records = [].
Proof.
  apply (two_required_values_match_nothing sample_signer sample_frame 12 []
           _ _ _ _ ["species"] {["species" := ["cat"; "dog"]]}
           "species" "cat" "dog" sample_loaded_eq).
  - compute_done.
  - compute_done.
  - compute_done.
  - done.
Defined.

(** Selecting [count] after [species], or before it and twice, is the same
    filter. *)
Lemma filtered_same_selection_witness :
  filtered ["species"; "count"] {["species" := ["cat"]]} sample_records
  = filtered ["count"; "species"; "count"] {["species" := ["cat"]]}
      sample_records.
Proof.
  apply filtered_same_selection.
  - intros s. rewrite !elem_of_cons, elem_of_nil. tauto.
  - intros s v _. reflexivity.
Defined.

(** Record 3 of the sample has no label: its menu says so. *)
Lemma menu_lists_labels_witness :
  items_html sample_all_sets (sample_record 3)
  = (if bool_decide (labels_by_set (sample_record 3) = ∅)
     then [no_labels_item]
     else label_item (sample_record 3)
            <$> filter (λ s, s ∈ dom (labels_by_set (sample_record 3)))
                       sample_all_sets)
  ∧ (∀ s, s ∈ dom (labels_by_set (sample_record 3))
          ↔ s ∈ filter (λ s, s ∈ dom (labels_by_set (sample_record 3)))
                       sample_all_sets).
Proof.
  apply (menu_lists_labels sample_signer sample_frame 12 [] _ _ _ _
           (sample_record 3) sample_loaded_eq).
  apply sample_record_elem_of. lia.
Defined.

(** ** Markup of the label menu *)

Lemma count_char_app (c : ascii) (s t : string) :
  count_char c (s +:+ t) = (count_char c s + count_char c t)%nat.
Proof.
  unfold count_char. by rewrite list_ascii_of_string_app, filter_app, length_app.
Qed.

Lemma count_char_escaped (c : ascii) (s : string) :
  c = "<"%char ∨ c = ">"%char ∨ c = ascii_of_nat 34 ∨ c = "'"%char →
  count_char c (html_escape s) = 0%nat.
Proof.
  intros Hc. unfold count_char.
  pose proof (html_escape_safe s) as Hsafe.
  induction Hsafe as [|a l (H1 & H2 & H3 & H4) _ IH]; [done|].
  rewrite filter_cons. rewrite decide_False; [done|].
  intros ->. destruct Hc as [->| [->| [->| ->]]]; done.
Qed.

(** Every item of the menu is the "No labels" one or the item of a set of
    [all_sets]; whatever the name of the set and its values, such an item
    has the tags and attribute quotes of its own template and no more: six
    [<], six [>] and six double quotes.  Label text adds no markup. *)
Theorem label_item_markup (all_sets : list string) (rec : record) :
  Forall (λ item,
    item = no_labels_item
    ∨ ∃ set_name, set_name ∈ all_sets
        ∧ item = label_item rec set_name
        ∧ count_char "<"%char item = 6%nat
        ∧ count_char ">"%char item = 6%nat
        ∧ count_char (ascii_of_nat 34) item = 6%nat)
    (items_html all_sets rec).
Proof.
  apply Forall_forall. intros item. rewrite items_html_present. cbv zeta.
  case_bool_decide; [intros ->%list_elem_of_singleton; by left|].
  intros (s & -> & [_ Hs]%list_elem_of_filter)%list_elem_of_fmap.
  right. exists s. split; [done|]. split; [done|]. unfold label_item.
  repeat split; rewrite !count_char_app, !count_char_escaped by auto;
    reflexivity.
Qed.

(** ** Signing and empty cells, on the records of a load *)

Section load_cells.

Variable generate_signed_url : trace → sign_request → sign_outcome.

Local Abbreviation load := (load_records_from_csv generate_signed_url).
Local Abbreviation annotation_cols_of df :=
  (filter (λ c, c ∉ NON_ANNOTATION_COLS) (columns df)).
Local Abbreviation loop df h :=
  (load_rows generate_signed_url (annotation_cols_of df) h).

(** The trace when the loop reaches row [i]. *)
Local Abbreviation trace_before df h tr i :=
  ((loop df h (take i (iterrows df)) tr).2).

(** C9: load sends a signing request exactly for the rows whose image-path
    cell is a string that starts with [gs://].  The trace load ends with is
    the trace it started with and, in row order, one request per such row,
    for the bucket and path of the string and for [expiry_hours] hours.
    Record [i] of the result comes from row [i]: for a [gs://] cell the
    processing of the row adds that one request and its outcome decides
    [url] and the signing error; for every other cell (a string of another
    scheme such as [s3://] or [http://], a number, NaN) it adds no request,
    the cell is the record's [url] as it is, and the record has no signing
    error. *)
Theorem load_signs_only_gs_uris (df : DataFrame) (expiry_hours : Z)
    (tr : trace) :
  "image_path" ∈ columns df →
  ∃ records all_sets labels_per_set tr',
    load df expiry_hours tr = (inr (records, all_sets, labels_per_set), tr')
    ∧ tr' = (tr ++ concat (requests_of expiry_hours <$> iterrows df))%list
    ∧ tr' = trace_before df expiry_hours tr (length (data df))
    ∧ ∀ i cells, data df !! i = Some cells →
        let cell := series_get (zip (columns df) cells) "image_path" in
        let tr_i := trace_before df expiry_hours tr i in
        let tr_i' := trace_before df expiry_hours tr (S i) in
        ∃ r, records !! i = Some r
          ∧ (∀ rest, cell = PStr ("gs://" +:+ rest) →
               let rq := request_for ("gs://" +:+ rest) expiry_hours in
               requests_of expiry_hours (zip (columns df) cells) = [rq]
               ∧ tr_i' = (tr_i ++ [rq])%list
               ∧ match generate_signed_url tr_i rq with
                 | Signed s => url r = PStr s ∧ __sign_error__ r = None
                 | Raised e => url r = PNone ∧ __sign_error__ r = Some e
                 end)
          ∧ ((∀ rest, cell ≠ PStr ("gs://" +:+ rest)) →
               requests_of expiry_hours (zip (columns df) cells) = []
               ∧ tr_i' = tr_i ∧ url r = cell ∧ __sign_error__ r = None).
Proof.
  intros Hin. rewrite load_unfold by done. cbv zeta.
  eexists _, _, _, _. split; [done|].
  split; [apply load_rows_trace|]. split.
  { f_equal. f_equal. rewrite take_ge; [done|].
    unfold iterrows. by rewrite length_fmap. }
  intros i cells Hcells. eexists.
  split; [apply load_rows_lookup; by apply iterrows_lookup|].
  rewrite (trace_before_S _ _ _ _ _ _ Hcells).
  pose proof (signing_only_for_gs_uris generate_signed_url
                (annotation_cols_of df) expiry_hours
                (zip (columns df) cells)
                (trace_before df expiry_hours tr i)) as Hbody.
  cbv zeta in Hbody. destruct Hbody as [Hgs Hother]. split.
  - intros rest Hcell. destruct (Hgs rest Hcell) as [Htrace Hout].
    split; [|by split]. unfold requests_of. rewrite Hcell.
    assert (startswith ("gs://" +:+ rest) "gs://" = true) as ->
      by (apply startswith_gs; eauto). done.
  - intros Hcell. destruct (Hother Hcell) as (Htrace & Hurl & Herr).
    split; [|done]. unfold requests_of.
    destruct (series_get (zip (columns df) cells) "image_path")
      as [|u| | | |] eqn:Hu; try done.
    destruct (startswith u "gs://") eqn:Hgs'; [|done].
    apply startswith_gs in Hgs' as [rest ->]. by destruct (Hcell rest).
Qed.

(** C10: when the image-path cell of row [i] is empty, record [i] of the
    loaded list keeps the parser's NaN as its [url], not [None], and has no
    signing error.  NaN is truthy: for that record the grid takes the
    branch that renders an image, not the "No preview" one, and the table's
    [url or ""] is NaN again, as are its Preview and URL cells. *)
Theorem load_empty_image_path_is_nan (df : DataFrame) (expiry_hours : Z)
    (tr : trace) (i : nat) (cells : list value) (show_url : bool) :
  "image_path" ∈ columns df →
  data df !! i = Some cells →
  series_get (zip (columns df) cells) "image_path" = PNaN →
  ∃ records all_sets labels_per_set tr' r,
    load df expiry_hours tr = (inr (records, all_sets, labels_per_set), tr')
    ∧ records !! i = Some r
    ∧ url r = PNaN
    ∧ url r ≠ PNone
    ∧ __sign_error__ r = None
    ∧ truthy (url r) = true
    ∧ (∃ html, grid_cell all_sets r = Markdown html)
    ∧ grid_cell all_sets r ≠ Caption "No preview"
    ∧ or (url r) (PStr "") = PNaN
    ∧ ("Preview" ∉ all_sets →
       dict_get (to_row show_url all_sets r) "Preview" = Some PNaN)
    ∧ ("URL" ∉ all_sets →
       dict_get (to_row true all_sets r) "URL" = Some PNaN).
Proof.
  intros Hin Hcells Hcell. rewrite load_unfold by done. cbv zeta.
  eexists _, _, _, _, _. split; [done|].
  split; [apply load_rows_lookup; by apply iterrows_lookup|].
  exact (empty_image_path_url_is_nan generate_signed_url _ expiry_hours _ _
           _ show_url Hcell).
Qed.

End load_cells.

(** Row 0 of the sample is a [gs://] cell, row 4 an [s3://] one: the load
    of the sample sends the request of row 0 and of row 3 and no other. *)
Lemma load_signs_only_gs_uris_witness :
  ∃ records all_sets labels_per_set tr',
    load_records_from_csv sample_signer sample_frame 12 []
    = (inr (records, all_sets, labels_per_set), tr')
    ∧ tr' = [request_for "gs://zoo/cat.jpg" 12;
             request_for "gs://locked/x.png" 12].
Proof.
  destruct (load_signs_only_gs_uris sample_signer sample_frame 12 [])
    as (records & all_sets & lps & tr' & Hload & Htrace & _).
  - compute_done.
  - exists records, all_sets, lps, tr'. split; [exact Hload|].
    rewrite Htrace. vm_compute. reflexivity.
Defined.

(** Row 2 of the sample has an empty image-path cell: record 2 of the
    loaded sample has NaN as its [url]. *)
Lemma load_empty_image_path_is_nan_witness :
  ∃ records all_sets labels_per_set tr' r,
    load_records_from_csv sample_signer sample_frame 12 []
    = (inr (records, all_sets, labels_per_set), tr')
    ∧ records !! 2 = Some r
    ∧ url r = PNaN
    ∧ ∃ html, grid_cell all_sets r = Markdown html.
Proof.
  destruct (load_empty_image_path_is_nan sample_signer sample_frame 12 [] 2
              [PNaN; PStr "   "; PFloat "1.5"] true)
    as (records & all_sets & lps & tr' & r & Hload & Hr & Hurl & _ & _ & _
        & Hgrid & _).
  - compute_done.
  - reflexivity.
  - reflexivity.
  - exists records, all_sets, lps, tr', r.
    split; [exact Hload|]. split; [exact Hr|]. split; [exact Hurl|exact Hgrid].
Defined.
